(** * Chemiverse: molecular formulas

    A shallow embedding of [chemiverse/formula/molecular.py]: the
    [MolecularFormula] class (constructor, [latex], [sort], [_sort_iupac])
    and the [from_counts] builder, with the properties of construction,
    canonical ordering and typeset rendering proved about them.

    Modelling conventions.
    - A Python [dict] is an association list in insertion order whose keys
      are pairwise distinct; [d[k] = v] overwrites in place when [k] is
      already a key and appends otherwise.
    - A Python [int] is a [Z]; a [str] is a [string], read as the sequence of
      the bytes of its UTF-8 encoding.  [strip] and [capitalize] are modelled
      on the ASCII range (bytes above 127 are left as they are), which is
      where element symbols live: they agree with Python on ASCII strings
      and not beyond, and what is stated of the normal form of a key is
      stated of ASCII keys.
    - A raised exception is the [Raise] case of [result].
    - A formula is an object of a heap; a method gets [self] by reference
      and [MolecularFormula(...)] allocates.  The methods themselves are
      functions of the attributes of [self].
    - The periodic table of [scicoda] is not part of the package: it is a
      parameter, a list of rows [(z, symbol, en_pauling)], and the three
      module-level dictionaries are computed from it as the module does.
    - An electronegativity is a finite float or NaN; a finite float is a
      rational number and floats compare as the rationals they denote, so
      the column is an [option Q] with [None] for NaN. *)

From Stdlib Require Import ZArith QArith Bool List Ascii String Lia.
From Stdlib Require Import Permutation Sorted DecimalString.
Import ListNotations.

Open Scope string_scope.
Open Scope Z_scope.

(** ** Exceptions and results *)

Inductive exception : Type :=
| KeyError_int (z : Z)          (* a missing integer key *)
| KeyError_str (s : string)     (* a missing string key *)
| TypeError                     (* "Invalid key type" *)
| ValueError (method : string). (* "Invalid sorting method" *)

Inductive result (A : Type) : Type :=
| Ok (a : A)
| Raise (e : exception).

Arguments Ok {A} a.
Arguments Raise {A} e.

Definition bind {A B : Type} (m : result A) (k : A -> result B) : result B :=
  match m with
  | Ok a => k a
  | Raise e => Raise e
  end.

Notation "x <- m ;; k" := (bind m (fun x => k))
  (at level 61, m at next level, right associativity).
Notation "' p <- m ;; k" := (bind m (fun x => let p := x in k))
  (at level 61, p pattern, m at next level, right associativity).

Fixpoint mapM {A B : Type} (f : A -> result B) (l : list A) : result (list B) :=
  match l with
  | [] => Ok []
  | a :: l' => b <- f a ;; bs <- mapM f l' ;; Ok (b :: bs)
  end.

(** ** Insertion-ordered dictionaries *)

Section Dict.
Context {K V : Type}.
Variable eqb : K -> K -> bool.

Definition dict : Type := list (K * V).

(** [d[k] = v] *)
Fixpoint dict_set (d : dict) (k : K) (v : V) : dict :=
  match d with
  | [] => [(k, v)]
  | (k', v') :: d' =>
      if eqb k' k then (k', v) :: d' else (k', v') :: dict_set d' k v
  end.

(** [d.get(k)] *)
Fixpoint dict_get (d : dict) (k : K) : option V :=
  match d with
  | [] => None
  | (k', v') :: d' => if eqb k' k then Some v' else dict_get d' k
  end.

(** [k in d] *)
Definition dict_contains (d : dict) (k : K) : bool :=
  match dict_get d k with Some _ => true | None => false end.

(** [d.keys()], which is also the iteration order of [d]. *)
Definition dict_keys (d : dict) : list K := map fst d.

(** [dict(items)], [{k: v for ...}]: the items are set one after the
    other. *)
Definition dict_of_items (items : list (K * V)) : dict :=
  fold_left (fun d kv => dict_set d (fst kv) (snd kv)) items [].

(** [d.update(items)] *)
Definition dict_update (d : dict) (items : list (K * V)) : dict :=
  fold_left (fun d kv => dict_set d (fst kv) (snd kv)) items d.

End Dict.

Arguments dict K V : clear implicits.

Definition getitem_int {V : Type} (d : dict Z V) (z : Z) : result V :=
  match dict_get Z.eqb d z with
  | Some v => Ok v
  | None => Raise (KeyError_int z)
  end.

Definition getitem_str {V : Type} (d : dict string V) (s : string) : result V :=
  match dict_get String.eqb d s with
  | Some v => Ok v
  | None => Raise (KeyError_str s)
  end.

(** ** [str.strip] and [str.capitalize] *)

Definition isspace (c : ascii) : bool :=
  let n := nat_of_ascii c in
  ((9 <=? n) && (n <=? 13) || (28 <=? n) && (n <=? 32))%nat.

Definition isupper (c : ascii) : bool :=
  let n := nat_of_ascii c in ((65 <=? n) && (n <=? 90))%nat.

Definition islower (c : ascii) : bool :=
  let n := nat_of_ascii c in ((97 <=? n) && (n <=? 122))%nat.

Definition upper (c : ascii) : ascii :=
  if islower c then ascii_of_nat (nat_of_ascii c - 32) else c.

Definition lower (c : ascii) : ascii :=
  if isupper c then ascii_of_nat (nat_of_ascii c + 32) else c.

Fixpoint lstrip (s : string) : string :=
  match s with
  | EmptyString => EmptyString
  | String c s' => if isspace c then lstrip s' else s
  end.

Fixpoint rstrip (s : string) : string :=
  match s with
  | EmptyString => EmptyString
  | String c s' =>
      match rstrip s' with
      | EmptyString => if isspace c then EmptyString else String c EmptyString
      | r => String c r
      end
  end.

Definition strip (s : string) : string := rstrip (lstrip s).

Fixpoint lower_all (s : string) : string :=
  match s with
  | EmptyString => EmptyString
  | String c s' => String (lower c) (lower_all s')
  end.

Definition capitalize (s : string) : string :=
  match s with
  | EmptyString => EmptyString
  | String c s' => String (upper c) (lower_all s')
  end.

(** Two strings of one length with white space at the same places. *)
Fixpoint same_spaces (s t : string) : Prop :=
  match s, t with
  | EmptyString, EmptyString => True
  | String a s', String b t' => isspace a = isspace b /\ same_spaces s' t'
  | _, _ => False
  end.

(** [str(n)] for an integer. *)
Definition str_int (n : Z) : string := NilZero.string_of_int (Z.to_int n).

(** ** [sorted]

    Python's [sorted] is stable and compares with [<] only.  The model
    inserts each element, from the last to the first, in front of the
    sorted rest, moving it past the elements strictly smaller than it. *)

Section Sorting.
Context {A K : Type}.
Variable ltb : K -> K -> bool.
Variable key : A -> K.

Fixpoint insert (x : A) (l : list A) : list A :=
  match l with
  | [] => [x]
  | y :: l' => if ltb (key y) (key x) then y :: insert x l' else x :: l
  end.

Fixpoint sorted (l : list A) : list A :=
  match l with
  | [] => []
  | x :: l' => insert x (sorted l')
  end.

(** [x] may stand before [y]: [y]'s key is not strictly below [x]'s. *)
Definition precedes (x y : A) : Prop := ltb (key y) (key x) = false.

End Sorting.

(** The sort keys of [en_sorter]: a finite float, or [float("inf")]. *)
Inductive en_key : Type :=
| Finite (q : Q)
| Infinity.

Definition Qltb (a b : Q) : bool :=
  match Qcompare a b with Lt => true | _ => false end.

Definition en_ltb (a b : en_key) : bool :=
  match a, b with
  | Finite p, Finite q => Qltb p q
  | Finite _, Infinity => true
  | Infinity, _ => false
  end.

Definition en_le (a b : en_key) : Prop :=
  match a, b with
  | Finite p, Finite q => (p <= q)%Q
  | _, Infinity => True
  | Infinity, Finite _ => False
  end.

(** Electronegativities in ascending order, an undefined one above every
    defined one. *)
Definition pauling_le (a b : option Q) : Prop :=
  match a, b with
  | Some p, Some q => (p <= q)%Q
  | _, None => True
  | None, Some _ => False
  end.

(** The sort key of an electronegativity: itself, [inf] when undefined. *)
Definition en_key_of (en : option Q) : en_key :=
  match en with
  | Some q => Finite q
  | None => Infinity
  end.

(** Two keys that compare equal. *)
Definition en_eqb (a b : en_key) : bool :=
  match a, b with
  | Finite p, Finite q => Qeq_bool p q
  | Infinity, Infinity => true
  | _, _ => false
  end.

(** ** The periodic table and the module-level dictionaries *)

Record element_row : Type := {
  col_z : Z;
  col_symbol : string;
  col_en_pauling : option Q
}.

(** The keys of the mapping given to the constructor: [isinstance(key, int)],
    [isinstance(key, str)], or anything else. *)
Inductive key : Type :=
| KInt (z : Z)
| KStr (s : string)
| KOther.

Record MolecularFormula : Type := {
  _z_to_count : dict Z Z;
  _symbol_to_count : dict string Z;
  _charge : Z
}.

(** The glyph of a negative charge, as the string literal of [latex]
    holds it: the code points U+00E2, U+20AC, U+201C, eight bytes of UTF-8. *)
Definition minus_glyph : string :=
  String (ascii_of_nat 195) (String (ascii_of_nat 162)
  (String (ascii_of_nat 226) (String (ascii_of_nat 130) (String (ascii_of_nat 172)
  (String (ascii_of_nat 226) (String (ascii_of_nat 128) (String (ascii_of_nat 156)
   EmptyString))))))).

(** U+2013 EN DASH, three bytes of UTF-8. *)
Definition en_dash : string :=
  String (ascii_of_nat 226) (String (ascii_of_nat 128) (String (ascii_of_nat 147)
   EmptyString)).

Section Formula.
(** [scicoda.atom.periodic_table()] *)
Variable _PERIODIC_TABLE : list element_row.

Definition _Z_TO_SYMBOL : dict Z string :=
  dict_of_items Z.eqb (map (fun r => (col_z r, col_symbol r)) _PERIODIC_TABLE).

Definition _SYMBOL_TO_Z : dict string Z :=
  dict_of_items String.eqb (map (fun r => (col_symbol r, col_z r)) _PERIODIC_TABLE).

Definition _Z_TO_EN : dict Z (option Q) :=
  dict_of_items Z.eqb (map (fun r => (col_z r, col_en_pauling r)) _PERIODIC_TABLE).

(** *** [MolecularFormula.__init__] *)

(** The body of the loop up to the two assignments: the atomic number and
    the symbol a key stands for. *)
Definition resolve (k : key) : result (Z * string) :=
  match k with
  | KInt z =>
      symbol <- getitem_int _Z_TO_SYMBOL z ;;
      Ok (z, symbol)
  | KStr s =>
      let symbol := capitalize (strip s) in
      z <- getitem_str _SYMBOL_TO_Z symbol ;;
      Ok (z, symbol)
  | KOther => Raise TypeError
  end.

Fixpoint init_loop (items : list (key * Z))
    (z_to_count : dict Z Z) (symbol_to_count : dict string Z)
    : result (dict Z Z * dict string Z) :=
  match items with
  | [] => Ok (z_to_count, symbol_to_count)
  | (k, count) :: items' =>
      '(z, symbol) <- resolve k ;;
      init_loop items' (dict_set Z.eqb z_to_count z count)
                       (dict_set String.eqb symbol_to_count symbol count)
  end.

(** [atom_count] is given as [atom_count.items()]. *)
Definition __init__ (atom_count : list (key * Z)) (charge : Z)
    : result MolecularFormula :=
  '(zc, sc) <- init_loop atom_count [] [] ;;
  Ok {| _z_to_count := zc; _symbol_to_count := sc; _charge := charge |}.

(** *** [MolecularFormula.latex] *)

Definition latex_part (item : string * Z) : string :=
  let '(symbol, count) := item in
  if count =? 1 then symbol
  else symbol ++ "\textsubscript{" ++ str_int count ++ "}".

Definition latex_charge (charge : Z) : list string :=
  if charge =? 0 then []
  else
    let abs_charge := Z.abs charge in
    let charge_str := if abs_charge =? 1 then "" else str_int abs_charge in
    ["\textsuperscript{" ++ charge_str
       ++ (if 0 <? charge then "+" else minus_glyph) ++ "}"].

Definition latex (self : MolecularFormula) : string :=
  let parts := (map latex_part (_symbol_to_count self)
                  ++ latex_charge (_charge self))%list in
  String.concat "" parts.

(** *** [MolecularFormula._sort_iupac] and [MolecularFormula.sort] *)

Definition en_sorter (symbol : string) : result en_key :=
  z <- getitem_str _SYMBOL_TO_Z symbol ;;
  en <- getitem_int _Z_TO_EN z ;;
  Ok (match en with None => Infinity | Some q => Finite q end).

(** [e not in ("C", "H")] *)
Definition not_C_or_H (e : string) : bool :=
  negb (String.eqb e "C" || String.eqb e "H").

Definition sorted_elements (counts : dict string Z) : result (list string) :=
  if dict_contains String.eqb counts "C" then
    Ok (["C"; "H"]
          ++ sorted String.ltb (fun e => e)
               (filter not_C_or_H (dict_keys counts)))%list
  else
    keyed <- mapM (fun e => k <- en_sorter e ;; Ok (k, e)) (dict_keys counts) ;;
    Ok (map snd (sorted en_ltb fst keyed)).

Definition _sort_iupac (self : MolecularFormula) : result MolecularFormula :=
  let counts := _symbol_to_count self in
  elements <- sorted_elements counts ;;
  items <- mapM (fun symbol => c <- getitem_str counts symbol ;; Ok (symbol, c))
                elements ;;
  let formula := dict_of_items String.eqb items in
  __init__ (map (fun kv => (KStr (fst kv), snd kv)) formula) (_charge self).

Definition sort (self : MolecularFormula) (method : string)
    : result MolecularFormula :=
  if String.eqb method "iupac" then _sort_iupac self
  else Raise (ValueError method).

(** *** [from_counts] *)

(** [if sort:] holds for a string that is not empty. *)
Definition truthy (sort : option string) : bool :=
  match sort with
  | None => false
  | Some s => negb (String.eqb s "")
  end.

Definition from_counts (counts : list (key * Z)) (charge : Z)
    (sort_method : option string) : result MolecularFormula :=
  formula <- __init__ counts charge ;;
  match sort_method with
  | Some m => if truthy sort_method then sort formula m else Ok formula
  | None => Ok formula
  end.
End Formula.

(** ** Objects

    A formula is an object of the heap and a method gets it by reference.
    [MolecularFormula(...)] allocates a new object; no method assigns to an
    attribute of an object that is there. *)

Definition heap : Type := list MolecularFormula.

Definition ref : Type := nat.

Definition deref (h : heap) (p : ref) : option MolecularFormula := nth_error h p.

Definition alloc (h : heap) (obj : MolecularFormula) : ref * heap :=
  (List.length h, (h ++ [obj])%list).

(** A method that returns the object it has constructed, or raises. *)
Definition returning (h : heap) (r : result MolecularFormula)
    : result ref * heap :=
  match r with
  | Ok obj => let '(p, h') := alloc h obj in (Ok p, h')
  | Raise e => (Raise e, h)
  end.

Section Objects.
Variable _PERIODIC_TABLE : list element_row.

(** [MolecularFormula(atom_count, charge=charge)] *)
Definition new (h : heap) (atom_count : list (key * Z)) (charge : Z)
    : result ref * heap :=
  returning h (__init__ _PERIODIC_TABLE atom_count charge).

(** [self.sort(method)]; [None] when [self] is no object of the heap. *)
Definition call_sort (h : heap) (self : ref) (method : string)
    : option (result ref * heap) :=
  match deref h self with
  | Some obj => Some (returning h (sort _PERIODIC_TABLE obj method))
  | None => None
  end.

End Objects.

(** ** Definitions for the statements *)

Section Statements.
Variable T : list element_row.

(** Every symbol of the table is in the form [capitalize (strip _)]
    gives, as the symbols of the elements are. *)
Definition table_capitalized : Prop :=
  Forall (fun r => capitalize (strip (col_symbol r)) = col_symbol r) T.

(** No atomic number has two rows. *)
Definition table_z_unique : Prop := NoDup (map col_z T).

(** No symbol has two rows. *)
Definition table_symbol_unique : Prop := NoDup (map col_symbol T).

(** One item of the input, resolved. *)
Definition resolve_item (kv : key * Z) : result (Z * string * Z) :=
  '(z, symbol) <- resolve T (fst kv) ;; Ok (z, symbol, snd kv).

Definition z_item (r : Z * string * Z) : Z * Z := (fst (fst r), snd r).

Definition symbol_item (r : Z * string * Z) : string * Z := (snd (fst r), snd r).

(** A symbol in normal form that the table knows. *)
Definition symbol_ok (s : string) : Prop :=
  capitalize (strip s) = s /\ exists z, getitem_str (_SYMBOL_TO_Z T) s = Ok z.

(** The count a dictionary holds for a symbol. *)
Definition count_of (counts : dict string Z) (s : string) : Z :=
  match dict_get String.eqb counts s with Some c => c | None => 0 end.

(** The items of [counts] for the symbols [elements], in their order. *)
Definition reorder (counts : dict string Z) (elements : list string)
    : list (string * Z) :=
  map (fun s => (s, count_of counts s)) elements.

(** The sort key of a symbol, [inf] also where [en_sorter] raises. *)
Definition en_of (s : string) : en_key :=
  match en_sorter T s with Ok k => k | Raise _ => Infinity end.

Definition carbon_order (counts : dict string Z) : list string :=
  ("C" :: "H" :: sorted String.ltb (fun e => e)
                   (filter not_C_or_H (dict_keys counts)))%list.

(** The atomic number the table gives for a symbol, 0 when it has none. *)
Definition number_of (s : string) : Z :=
  match dict_get String.eqb (_SYMBOL_TO_Z T) s with Some z => z | None => 0 end.

(** A symbol the table has a number for. *)
Definition known (s : string) : Prop :=
  getitem_str (_SYMBOL_TO_Z T) s = Ok (number_of s).

(** The dictionary by atomic number that goes with one by symbol. *)
Definition by_number (counts : dict string Z) : dict Z Z :=
  map (fun kv => (number_of (fst kv), snd kv)) counts.

(** A key the table does not know: an atomic number without a symbol, or
    a string whose normal form is no symbol. *)
Definition unresolved (k : key) : Prop :=
  match k with
  | KInt z => dict_get Z.eqb (_Z_TO_SYMBOL T) z = None
  | KStr s => dict_get String.eqb (_SYMBOL_TO_Z T) (capitalize (strip s)) = None
  | KOther => False
  end.

(** The electronegativity the table holds for a symbol, read from the
    dictionaries: nothing when the symbol or its number has no entry,
    [Some None] when the entry is NaN. *)
Definition pauling (s : string) : option (option Q) :=
  match dict_get String.eqb (_SYMBOL_TO_Z T) s with
  | Some z => dict_get Z.eqb (_Z_TO_EN T) z
  | None => None
  end.

(** The symbols whose electronegativity compares equal to [v]. *)
Definition has_pauling (v : option Q) (s : string) : bool :=
  match pauling s with
  | Some en =>
      match en, v with
      | Some p, Some q => Qeq_bool p q
      | None, None => true
      | _, _ => false
      end
  | None => false
  end.

End Statements.

Definition is_KeyError (e : exception) : bool :=
  match e with
  | KeyError_int _ | KeyError_str _ => true
  | _ => false
  end.

(** The end of the rendering, for the charge. *)
Definition charge_suffix (charge : Z) : string :=
  if charge =? 0 then ""
  else "\textsuperscript{"
         ++ (if Z.abs charge =? 1 then "" else str_int (Z.abs charge))
         ++ (if 0 <? charge then "+" else minus_glyph) ++ "}".

(** A string of ASCII characters, and a key that is no string with a
    character outside ASCII. *)
Fixpoint is_ascii (s : string) : bool :=
  match s with
  | EmptyString => true
  | String c s' => (nat_of_ascii c <? 128)%nat && is_ascii s'
  end.

Definition ascii_key (k : key) : bool :=
  match k with
  | KStr s => is_ascii s
  | _ => true
  end.

(** A key with its symbol in normal form. *)
Definition normalize_key (k : key) : key :=
  match k with
  | KStr s => KStr (capitalize (strip s))
  | _ => k
  end.

(** Two outcomes of the same kind: formulas whose dictionaries have the
    same keys in the same order, or the same exception. *)
Definition same_keys_outcome (r1 r2 : result MolecularFormula) : Prop :=
  match r1, r2 with
  | Ok f1, Ok f2 =>
      dict_keys (_symbol_to_count f1) = dict_keys (_symbol_to_count f2)
      /\ dict_keys (_z_to_count f1) = dict_keys (_z_to_count f2)
  | Raise e1, Raise e2 => e1 = e2
  | _, _ => False
  end.

(** ** An excerpt of the periodic table

    The first eighteen elements with their Pauling electronegativities;
    the noble gases have none. *)

Definition row (z : Z) (symbol : string) (en : option Q) : element_row :=
  {| col_z := z; col_symbol := symbol; col_en_pauling := en |}.

Definition periodic_table_excerpt : list element_row :=
  [ row 1 "H" (Some 2.20%Q); row 2 "He" None; row 3 "Li" (Some 0.98%Q);
    row 4 "Be" (Some 1.57%Q); row 5 "B" (Some 2.04%Q); row 6 "C" (Some 2.55%Q);
    row 7 "N" (Some 3.04%Q); row 8 "O" (Some 3.44%Q); row 9 "F" (Some 3.98%Q);
    row 10 "Ne" None; row 11 "Na" (Some 0.93%Q); row 12 "Mg" (Some 1.31%Q);
    row 13 "Al" (Some 1.61%Q); row 14 "Si" (Some 1.90%Q); row 15 "P" (Some 2.19%Q);
    row 16 "S" (Some 2.58%Q); row 17 "Cl" (Some 3.16%Q); row 18 "Ar" None ].

(** * Properties *)

Example strip_capitalize_ex : capitalize (strip "  nA  ") = "Na".
Proof. reflexivity. Qed.

Example str_int_ex : (str_int 0, str_int 12, str_int (-3)) = ("0", "12", "-3").
Proof. reflexivity. Qed.

(** ** Results *)

Lemma bind_ok_inv {A B : Type} (m : result A) (k : A -> result B) (b : B) :
  bind m k = Ok b -> exists a, m = Ok a /\ k a = Ok b.
Proof. destruct m as [a|e]; simpl; intros H; [eauto | discriminate]. Qed.

Lemma mapM_ok_map {A B : Type} (f : A -> result B) (g : A -> B) (l : list A) :
  (forall a, In a l -> f a = Ok (g a)) -> mapM f l = Ok (map g l).
Proof.
  induction l as [|a l IH]; intros Hf; simpl; [reflexivity|].
  rewrite (Hf a (or_introl eq_refl)); simpl.
  rewrite IH by (intros; apply Hf; right; assumption). reflexivity.
Qed.

Lemma mapM_ok_inv {A B : Type} (f : A -> result B) (l : list A) (bs : list B) :
  mapM f l = Ok bs -> Forall2 (fun a b => f a = Ok b) l bs.
Proof.
  revert bs; induction l as [|a l IH]; simpl; intros bs H.
  - injection H as <-. constructor.
  - apply bind_ok_inv in H as (b & Hb & H).
    apply bind_ok_inv in H as (bs' & Hbs & H).
    injection H as <-. constructor; auto.
Qed.

(** ** Dictionaries *)

Section DictFacts.
Context {K V : Type}.
Variable eqb : K -> K -> bool.
Hypothesis eqb_eq : forall a b, eqb a b = true <-> a = b.

Lemma key_eqb_refl a : eqb a a = true.
Proof. apply eqb_eq; reflexivity. Qed.

Lemma key_eqb_neq a b : a <> b -> eqb a b = false.
Proof.
  intros H; destruct (eqb a b) eqn:E; [|reflexivity].
  apply eqb_eq in E; contradiction.
Qed.

Lemma dict_get_none (d : dict K V) k :
  dict_get eqb d k = None <-> ~ In k (dict_keys d).
Proof.
  induction d as [|[k' v'] d IH]; simpl.
  - tauto.
  - destruct (eqb k' k) eqn:E.
    + apply eqb_eq in E. split; [discriminate | tauto].
    + rewrite IH. split; [|tauto].
      intros H [H1|H1]; [|tauto]. subst. rewrite key_eqb_refl in E. discriminate.
Qed.

Lemma dict_get_in (d : dict K V) k v :
  dict_get eqb d k = Some v -> In (k, v) d.
Proof.
  induction d as [|[k' v'] d IH]; simpl; [discriminate|].
  destruct (eqb k' k) eqn:E; intros H.
  - apply eqb_eq in E. injection H as <-. subst. auto.
  - auto.
Qed.

Lemma dict_get_some_key (d : dict K V) k v :
  dict_get eqb d k = Some v -> In k (dict_keys d).
Proof. intros H. apply dict_get_in in H. apply (in_map fst) in H. exact H. Qed.

Lemma in_dict_get (d : dict K V) k v :
  NoDup (dict_keys d) -> In (k, v) d -> dict_get eqb d k = Some v.
Proof.
  induction d as [|[k' v'] d IH]; simpl; [tauto|].
  intros Hnd [H|H].
  - injection H as -> ->. rewrite key_eqb_refl. reflexivity.
  - inversion Hnd as [|? ? Hni Hnd']; subst.
    rewrite key_eqb_neq; [auto|].
    intros ->. apply Hni. apply (in_map fst) in H. exact H.
Qed.

Lemma dict_contains_in (d : dict K V) k :
  dict_contains eqb d k = true <-> In k (dict_keys d).
Proof.
  unfold dict_contains. destruct (dict_get eqb d k) eqn:E.
  - split; [intros _; eapply dict_get_some_key; eauto | reflexivity].
  - apply dict_get_none in E. split; [discriminate | tauto].
Qed.

Lemma dict_get_set_same (d : dict K V) k v :
  dict_get eqb (dict_set eqb d k v) k = Some v.
Proof.
  induction d as [|[k' v'] d IH]; simpl.
  - rewrite key_eqb_refl. reflexivity.
  - destruct (eqb k' k) eqn:E; simpl; rewrite E; auto.
Qed.

Lemma dict_get_set_other (d : dict K V) k v k0 :
  k <> k0 -> dict_get eqb (dict_set eqb d k v) k0 = dict_get eqb d k0.
Proof.
  intros Hne. induction d as [|[k' v'] d IH]; simpl.
  - rewrite key_eqb_neq by assumption. reflexivity.
  - destruct (eqb k' k) eqn:E; simpl.
    + apply eqb_eq in E. subst. rewrite !key_eqb_neq by assumption. reflexivity.
    + rewrite IH. reflexivity.
Qed.

(** Setting a new key appends it. *)
Lemma dict_set_new (d : dict K V) k v :
  ~ In k (dict_keys d) -> dict_set eqb d k v = (d ++ [(k, v)])%list.
Proof.
  induction d as [|[k' v'] d IH]; simpl; [reflexivity|].
  intros H. rewrite key_eqb_neq by tauto. rewrite IH by tauto. reflexivity.
Qed.

(** Setting a key that is there leaves the keys and their order alone. *)
Lemma dict_keys_set_old (d : dict K V) k v :
  In k (dict_keys d) -> dict_keys (dict_set eqb d k v) = dict_keys d.
Proof.
  induction d as [|[k' v'] d IH]; simpl; [tauto|].
  intros H. destruct (eqb k' k) eqn:E; simpl; [reflexivity|].
  f_equal. apply IH. destruct H as [H|H]; [|exact H].
  subst. rewrite key_eqb_refl in E. discriminate.
Qed.

Lemma dict_keys_set_new (d : dict K V) k v :
  ~ In k (dict_keys d) -> dict_keys (dict_set eqb d k v) = (dict_keys d ++ [k])%list.
Proof.
  intros H. rewrite dict_set_new by assumption.
  unfold dict_keys. rewrite map_app. reflexivity.
Qed.

(** The keys of a dictionary before an assignment are a prefix of its
    keys after it. *)
Lemma dict_keys_set_prefix (d : dict K V) k v :
  exists t, dict_keys (dict_set eqb d k v) = (dict_keys d ++ t)%list.
Proof.
  destruct (dict_get eqb d k) eqn:E.
  - exists []. rewrite app_nil_r. apply dict_keys_set_old.
    eapply dict_get_some_key; eauto.
  - exists [k]. apply dict_keys_set_new. apply dict_get_none. exact E.
Qed.

Lemma dict_keys_set_in (d : dict K V) k v k0 :
  In k0 (dict_keys (dict_set eqb d k v)) <-> k0 = k \/ In k0 (dict_keys d).
Proof.
  destruct (dict_get eqb d k) eqn:E.
  - rewrite dict_keys_set_old by (eapply dict_get_some_key; eauto).
    apply dict_get_some_key in E. split; [tauto|]. intros [->|H]; auto.
  - apply dict_get_none in E. rewrite dict_keys_set_new by assumption.
    rewrite in_app_iff. simpl. intuition congruence.
Qed.

Lemma dict_set_NoDup (d : dict K V) k v :
  NoDup (dict_keys d) -> NoDup (dict_keys (dict_set eqb d k v)).
Proof.
  intros Hnd. destruct (dict_get eqb d k) eqn:E.
  - rewrite dict_keys_set_old by (eapply dict_get_some_key; eauto). exact Hnd.
  - apply dict_get_none in E. rewrite dict_keys_set_new by assumption.
    apply NoDup_app; [exact Hnd | repeat constructor; simpl; tauto |].
    intros a Ha [<-|[]]. contradiction.
Qed.

Lemma fold_dict_set_NoDup (items : list (K * V)) (d : dict K V) :
  NoDup (dict_keys d) ->
  NoDup (dict_keys (fold_left (fun d kv => dict_set eqb d (fst kv) (snd kv)) items d)).
Proof.
  revert d; induction items as [|[k v] items IH]; simpl; intros d H; [exact H|].
  apply IH. apply dict_set_NoDup. exact H.
Qed.

Lemma fold_dict_set_fresh (items : list (K * V)) (d : dict K V) :
  NoDup (dict_keys d ++ map fst items) ->
  fold_left (fun d kv => dict_set eqb d (fst kv) (snd kv)) items d
  = (d ++ items)%list.
Proof.
  revert d; induction items as [|[k v] items IH]; simpl; intros d H.
  - rewrite app_nil_r. reflexivity.
  - assert (Hk : ~ In k (dict_keys d)).
    { apply NoDup_remove_2 in H. rewrite in_app_iff in H. tauto. }
    rewrite dict_set_new by assumption.
    rewrite IH.
    + rewrite <- app_assoc. reflexivity.
    + unfold dict_keys in *. rewrite map_app. simpl.
      rewrite <- app_assoc. exact H.
Qed.

(** Items with pairwise distinct keys make the dictionary that lists
    them in their order. *)
Lemma dict_of_items_NoDup (items : list (K * V)) :
  NoDup (map fst items) -> dict_of_items eqb items = items.
Proof. intros H. unfold dict_of_items. rewrite fold_dict_set_fresh; auto. Qed.

Lemma dict_of_items_keys_NoDup (items : list (K * V)) :
  NoDup (dict_keys (dict_of_items eqb items)).
Proof. apply fold_dict_set_NoDup. constructor. Qed.

Lemma fold_dict_set_keys_in (items : list (K * V)) (d : dict K V) k :
  In k (dict_keys (fold_left (fun d kv => dict_set eqb d (fst kv) (snd kv)) items d))
  <-> In k (dict_keys d) \/ In k (map fst items).
Proof.
  revert d; induction items as [|[k' v] items IH]; simpl; intros d; [tauto|].
  rewrite IH, dict_keys_set_in. intuition congruence.
Qed.

Lemma fold_dict_set_get_in (items : list (K * V)) (d : dict K V) k v :
  dict_get eqb (fold_left (fun d kv => dict_set eqb d (fst kv) (snd kv)) items d) k
    = Some v ->
  dict_get eqb d k = Some v \/ In (k, v) items.
Proof.
  revert d; induction items as [|[k' v'] items IH]; simpl; intros d H; [auto|].
  apply IH in H as [H|H]; [|auto].
  destruct (eqb k' k) eqn:E.
  - apply eqb_eq in E. subst. rewrite dict_get_set_same in H.
    injection H as <-. auto.
  - rewrite dict_get_set_other in H; [auto|].
    intros ->. rewrite key_eqb_refl in E. discriminate.
Qed.

Lemma dict_of_items_get_in (items : list (K * V)) k v :
  dict_get eqb (dict_of_items eqb items) k = Some v -> In (k, v) items.
Proof. intros H. apply fold_dict_set_get_in in H as [H|H]; [discriminate | exact H]. Qed.

Lemma dict_of_items_keys_in (items : list (K * V)) k :
  In k (dict_keys (dict_of_items eqb items)) <-> In k (map fst items).
Proof. unfold dict_of_items. rewrite fold_dict_set_keys_in. simpl. tauto. Qed.

(** A dictionary lists, for each of its keys in order, the value it
    holds for it. *)
Lemma dict_items_of_keys (d : dict K V) (dflt : V) :
  NoDup (dict_keys d) ->
  map (fun k => (k, match dict_get eqb d k with Some v => v | None => dflt end))
      (dict_keys d) = d.
Proof.
  intros Hnd. unfold dict_keys. rewrite map_map.
  rewrite <- (map_id d) at 2. apply map_ext_in.
  intros [k v] Hin. simpl. rewrite (in_dict_get d k v Hnd Hin). reflexivity.
Qed.
Lemma dict_of_items_update (items : list (K * V)) :
  dict_of_items eqb items = dict_update eqb [] items.
Proof. reflexivity. Qed.

Lemma dict_update_app (d : dict K V) l1 l2 :
  dict_update eqb d (l1 ++ l2) = dict_update eqb (dict_update eqb d l1) l2.
Proof. apply fold_left_app. Qed.

Lemma dict_update_cons (d : dict K V) k v l :
  dict_update eqb d ((k, v) :: l) = dict_update eqb (dict_set eqb d k v) l.
Proof. reflexivity. Qed.

Lemma dict_update_cons_item (d : dict K V) kv l :
  dict_update eqb d (kv :: l) = dict_update eqb (dict_set eqb d (fst kv) (snd kv)) l.
Proof. reflexivity. Qed.

(** Assignments to other keys leave the value of a key alone. *)
Lemma dict_update_get_other (items : list (K * V)) (d : dict K V) k :
  ~ In k (map fst items) ->
  dict_get eqb (dict_update eqb d items) k = dict_get eqb d k.
Proof.
  revert d; induction items as [|[k' v'] items IH]; intros d H; [reflexivity|].
  simpl in H. rewrite dict_update_cons, IH by tauto. apply dict_get_set_other. tauto.
Qed.

(** Assignments keep the keys that are there, in their places. *)
Lemma dict_update_keys_prefix (items : list (K * V)) (d : dict K V) :
  exists t, dict_keys (dict_update eqb d items) = (dict_keys d ++ t)%list.
Proof.
  revert d; induction items as [|[k v] items IH]; intros d.
  - exists []. rewrite app_nil_r. reflexivity.
  - rewrite dict_update_cons. destruct (IH (dict_set eqb d k v)) as (t & ->).
    destruct (dict_keys_set_prefix d k v) as (t0 & ->).
    exists (t0 ++ t)%list. rewrite app_assoc. reflexivity.
Qed.
End DictFacts.

(** ** Normalisation of symbols *)

Lemma isspace_upper c : isspace (upper c) = isspace c.
Proof. destruct c as [[] [] [] [] [] [] [] []]; reflexivity. Qed.

Lemma isspace_lower c : isspace (lower c) = isspace c.
Proof. destruct c as [[] [] [] [] [] [] [] []]; reflexivity. Qed.

Lemma upper_upper c : upper (upper c) = upper c.
Proof. destruct c as [[] [] [] [] [] [] [] []]; reflexivity. Qed.

Lemma lower_lower c : lower (lower c) = lower c.
Proof. destruct c as [[] [] [] [] [] [] [] []]; reflexivity. Qed.

Lemma lower_all_idem s : lower_all (lower_all s) = lower_all s.
Proof. induction s as [|c s IH]; simpl; [|rewrite lower_lower, IH]; reflexivity. Qed.

Lemma capitalize_idem s : capitalize (capitalize s) = capitalize s.
Proof. destruct s as [|c s]; simpl; [|rewrite upper_upper, lower_all_idem]; reflexivity. Qed.

Lemma same_spaces_lower_all s : same_spaces s (lower_all s).
Proof. induction s as [|c s IH]; simpl; [|rewrite isspace_lower]; auto. Qed.

Lemma same_spaces_capitalize s : same_spaces s (capitalize s).
Proof.
  destruct s as [|c s]; simpl; [|rewrite isspace_upper]; auto using same_spaces_lower_all.
Qed.

Lemma lstrip_head s :
  lstrip s = EmptyString \/ exists c s', lstrip s = String c s' /\ isspace c = false.
Proof.
  induction s as [|c s IH]; simpl; [auto|].
  destruct (isspace c) eqn:E; [exact IH | right; eauto].
Qed.

Lemma rstrip_nonspace c s : isspace c = false -> rstrip (String c s) = String c (rstrip s).
Proof. intros H. simpl. rewrite H. destruct (rstrip s); reflexivity. Qed.

Lemma rstrip_idem s : rstrip (rstrip s) = rstrip s.
Proof.
  induction s as [|c s IH]; simpl; [reflexivity|].
  destruct (rstrip s) as [|a r] eqn:E.
  - destruct (isspace c) eqn:Ec; simpl; [|rewrite Ec]; reflexivity.
  - change (rstrip (String c (String a r))) with
      (match rstrip (String a r) with
       | EmptyString => if isspace c then EmptyString else String c EmptyString
       | r0 => String c r0 end).
    rewrite IH. reflexivity.
Qed.

Lemma lstrip_strip s : lstrip (strip s) = strip s.
Proof.
  unfold strip. destruct (lstrip_head s) as [H|(c & s' & H & Hc)]; rewrite H.
  - reflexivity.
  - rewrite rstrip_nonspace by assumption. simpl. rewrite Hc. reflexivity.
Qed.

Lemma rstrip_strip s : rstrip (strip s) = strip s.
Proof. apply rstrip_idem. Qed.

Lemma same_spaces_lstrip s t : same_spaces s t -> lstrip s = s -> lstrip t = t.
Proof.
  destruct s as [|a s], t as [|b t]; simpl; try tauto.
  intros [Hab _]. rewrite <- Hab. destruct (isspace a) eqn:Ea; [|reflexivity].
  intros H. destruct (lstrip_head s) as [H'|(c & s' & H' & Hc)]; rewrite H' in H.
  - discriminate.
  - injection H as -> _. congruence.
Qed.

Lemma same_spaces_rstrip s t : same_spaces s t -> rstrip s = s -> rstrip t = t.
Proof.
  revert t; induction s as [|a s IH]; intros [|b t]; simpl; try tauto.
  intros [Hab Hst]. rewrite <- Hab.
  destruct (rstrip s) as [|a' r] eqn:E.
  - destruct (isspace a); [discriminate|]. intros H. injection H as <-.
    destruct t; [reflexivity | simpl in Hst; tauto].
  - intros H. injection H as H. rewrite (IH t Hst H).
    destruct t; [|reflexivity]. subst s. simpl in Hst. tauto.
Qed.

(** Normalising a normalised symbol changes nothing. *)
Lemma normalize_idem s :
  capitalize (strip (capitalize (strip s))) = capitalize (strip s).
Proof.
  assert (H : strip (capitalize (strip s)) = capitalize (strip s)).
  { unfold strip at 1.
    rewrite (same_spaces_lstrip _ _ (same_spaces_capitalize (strip s)) (lstrip_strip s)).
    apply (same_spaces_rstrip _ _ (same_spaces_capitalize (strip s)) (rstrip_strip s)). }
  rewrite H. apply capitalize_idem.
Qed.

(** ** [sorted] *)

Section SortingFacts.
Context {A K : Type}.
Variable ltb : K -> K -> bool.
Variable key : A -> K.

Hypothesis ltb_asym : forall a b, ltb a b = true -> ltb b a = false.

Lemma insert_perm x l : Permutation (insert ltb key x l) (x :: l).
Proof.
  induction l as [|y l IH]; simpl; [reflexivity|].
  destruct (ltb (key y) (key x)); [|reflexivity].
  rewrite IH. apply perm_swap.
Qed.

Lemma sorted_perm l : Permutation (sorted ltb key l) l.
Proof.
  induction l as [|x l IH]; simpl; [reflexivity|].
  rewrite insert_perm. constructor. exact IH.
Qed.

Lemma sorted_in l x : In x (sorted ltb key l) <-> In x l.
Proof.
  split; apply Permutation_in; [|symmetry]; apply sorted_perm.
Qed.

Lemma insert_Sorted x l :
  Sorted (precedes ltb key) l -> Sorted (precedes ltb key) (insert ltb key x l).
Proof.
  induction l as [|y l IH]; simpl; intros H.
  - repeat constructor.
  - destruct (ltb (key y) (key x)) eqn:E.
    + inversion H as [|? ? Hs Hhd]; subst. constructor; [auto|].
      destruct l as [|y' l]; simpl.
      * constructor. apply ltb_asym. exact E.
      * destruct (ltb (key y') (key x)); constructor.
        -- inversion Hhd; assumption.
        -- apply ltb_asym. exact E.
    + constructor; [exact H|]. constructor. exact E.
Qed.

Lemma sorted_Sorted l : Sorted (precedes ltb key) (sorted ltb key l).
Proof. induction l; simpl; [constructor | apply insert_Sorted; assumption]. Qed.

(** Sorting a sorted list gives it back. *)
Lemma sorted_fixed l : Sorted (precedes ltb key) l -> sorted ltb key l = l.
Proof.
  induction l as [|x l IH]; simpl; intros H; [reflexivity|].
  inversion H as [|? ? Hs Hhd]; subst. rewrite IH by assumption.
  destruct l as [|y l]; simpl; [reflexivity|].
  inversion Hhd as [|? ? Hxy]; subst. unfold precedes in Hxy. rewrite Hxy.
  reflexivity.
Qed.

Lemma sorted_idem l : sorted ltb key (sorted ltb key l) = sorted ltb key l.
Proof. apply sorted_fixed, sorted_Sorted. Qed.

(** Stability: the elements of a class none of whose members is strictly
    below another keep their order. *)
Section Stable.
Variable p : A -> bool.
Hypothesis p_ties :
  forall x y, p x = true -> p y = true -> ltb (key y) (key x) = false.

Lemma filter_insert x l :
  filter p (insert ltb key x l) = filter p (x :: l).
Proof.
  induction l as [|y l IH]; simpl; [reflexivity|].
  destruct (ltb (key y) (key x)) eqn:E; [|reflexivity].
  simpl. rewrite IH. simpl.
  destruct (p x) eqn:Ex, (p y) eqn:Ey; try reflexivity.
  rewrite (p_ties x y Ex Ey) in E. discriminate.
Qed.

Lemma filter_sorted l : filter p (sorted ltb key l) = filter p l.
Proof.
  induction l as [|x l IH]; simpl; [reflexivity|].
  rewrite filter_insert. simpl. rewrite IH. reflexivity.
Qed.
End Stable.
End SortingFacts.

(** *** The order of the sort keys *)

Lemma Qltb_lt a b : Qltb a b = true <-> (a < b)%Q.
Proof.
  unfold Qltb. rewrite Qlt_alt. destruct (a ?= b)%Q; split; congruence.
Qed.

Lemma Qltb_false a b : Qltb a b = false <-> (b <= a)%Q.
Proof.
  rewrite <- Bool.not_true_iff_false, Qltb_lt. split.
  - apply Qnot_lt_le.
  - apply Qle_not_lt.
Qed.

Lemma en_ltb_false a b : en_ltb b a = false <-> en_le a b.
Proof.
  destruct a as [p|], b as [q|]; simpl; try (split; [tauto | reflexivity]).
  - apply Qltb_false.
  - split; [discriminate | tauto].
Qed.

Lemma en_ltb_asym a b : en_ltb a b = true -> en_ltb b a = false.
Proof.
  destruct a as [p|], b as [q|]; simpl; try congruence.
  rewrite Qltb_lt, Qltb_false. apply Qlt_le_weak.
Qed.

Lemma en_le_trans a b c : en_le a b -> en_le b c -> en_le a c.
Proof.
  destruct a as [p|], b as [q|], c as [r|]; simpl; try tauto.
  apply Qle_trans.
Qed.

Lemma en_eqb_ties v a b :
  en_eqb a v = true -> en_eqb b v = true -> en_ltb b a = false.
Proof.
  destruct a as [p|], b as [q|], v as [r|]; simpl; try congruence.
  rewrite !Qeq_bool_iff, Qltb_false. intros -> ->. apply Qle_refl.
Qed.

Lemma string_ltb_asym a b : String.ltb a b = true -> String.ltb b a = false.
Proof.
  unfold String.ltb. rewrite (String.compare_antisym a b).
  destruct (String.compare b a); simpl; congruence.
Qed.

(** ** Construction *)

Lemma mapM_app {A B : Type} (f : A -> result B) (l1 l2 : list A) :
  mapM f (l1 ++ l2) = (b1 <- mapM f l1 ;; b2 <- mapM f l2 ;; Ok (b1 ++ b2)%list).
Proof.
  induction l1 as [|a l1 IH]; simpl.
  - destruct (mapM f l2); reflexivity.
  - destruct (f a); simpl; [|reflexivity]. rewrite IH.
    destruct (mapM f l1); simpl; [|reflexivity].
    destruct (mapM f l2); reflexivity.
Qed.

Section FormulaFacts.
Variable T : list element_row.

(** *** The three dictionaries *)

Lemma Z_TO_SYMBOL_row z s :
  getitem_int (_Z_TO_SYMBOL T) z = Ok s ->
  exists r, In r T /\ col_z r = z /\ col_symbol r = s.
Proof.
  unfold getitem_int, _Z_TO_SYMBOL.
  destruct (dict_get _ _ z) as [s'|] eqn:E; [|discriminate].
  intros H; injection H as ->.
  apply (dict_of_items_get_in Z.eqb Z.eqb_eq) in E.
  apply in_map_iff in E as (r & Hr & Hin). injection Hr as <- <-. eauto.
Qed.

Lemma SYMBOL_TO_Z_row s z :
  getitem_str (_SYMBOL_TO_Z T) s = Ok z ->
  exists r, In r T /\ col_z r = z /\ col_symbol r = s.
Proof.
  unfold getitem_str, _SYMBOL_TO_Z.
  destruct (dict_get _ _ s) as [z'|] eqn:E; [|discriminate].
  intros H; injection H as ->.
  apply (dict_of_items_get_in String.eqb String.eqb_eq) in E.
  apply in_map_iff in E as (r & Hr & Hin). injection Hr as <- <-. eauto.
Qed.

Lemma row_SYMBOL_TO_Z r :
  In r T -> exists z, getitem_str (_SYMBOL_TO_Z T) (col_symbol r) = Ok z.
Proof.
  intros Hin. unfold getitem_str, _SYMBOL_TO_Z.
  destruct (dict_get _ _ (col_symbol r)) as [z|] eqn:E; [eauto|].
  apply (dict_get_none String.eqb String.eqb_eq) in E. exfalso; apply E.
  apply (dict_of_items_keys_in String.eqb String.eqb_eq).
  rewrite map_map. simpl. apply in_map. exact Hin.
Qed.

Lemma row_Z_TO_EN r :
  In r T -> exists en, getitem_int (_Z_TO_EN T) (col_z r) = Ok en.
Proof.
  intros Hin. unfold getitem_int, _Z_TO_EN.
  destruct (dict_get _ _ (col_z r)) as [en|] eqn:E; [eauto|].
  apply (dict_get_none Z.eqb Z.eqb_eq) in E. exfalso; apply E.
  apply (dict_of_items_keys_in Z.eqb Z.eqb_eq).
  rewrite map_map. simpl. apply in_map. exact Hin.
Qed.

(** When atomic numbers are unique, the symbol of the number of a symbol
    is that symbol. *)
Lemma Z_TO_SYMBOL_of_SYMBOL_TO_Z s z :
  table_z_unique T ->
  getitem_str (_SYMBOL_TO_Z T) s = Ok z -> getitem_int (_Z_TO_SYMBOL T) z = Ok s.
Proof.
  intros Hu H. apply SYMBOL_TO_Z_row in H as (r & Hin & <- & <-).
  unfold getitem_int, _Z_TO_SYMBOL.
  rewrite (dict_of_items_NoDup Z.eqb Z.eqb_eq).
  - rewrite (in_dict_get Z.eqb Z.eqb_eq _ (col_z r) (col_symbol r)); [reflexivity | |].
    + unfold dict_keys. rewrite map_map. exact Hu.
    + apply (in_map (fun r => (col_z r, col_symbol r))). exact Hin.
  - rewrite map_map. exact Hu.
Qed.

(** When symbols are unique, the number of the symbol of a number is
    that number. *)
Lemma SYMBOL_TO_Z_of_Z_TO_SYMBOL z s :
  table_symbol_unique T ->
  getitem_int (_Z_TO_SYMBOL T) z = Ok s -> getitem_str (_SYMBOL_TO_Z T) s = Ok z.
Proof.
  intros Hu H. apply Z_TO_SYMBOL_row in H as (r & Hin & <- & <-).
  unfold getitem_str, _SYMBOL_TO_Z.
  rewrite (dict_of_items_NoDup String.eqb String.eqb_eq).
  - rewrite (in_dict_get String.eqb String.eqb_eq _ (col_symbol r) (col_z r));
      [reflexivity | |].
    + unfold dict_keys. rewrite map_map. exact Hu.
    + apply (in_map (fun r => (col_symbol r, col_z r))). exact Hin.
  - rewrite map_map. exact Hu.
Qed.

(** *** The constructor in closed form *)

Lemma init_loop_eq items zc sc :
  init_loop T items zc sc =
  (rs <- mapM (resolve_item T) items ;;
   Ok (dict_update Z.eqb zc (map z_item rs),
       dict_update String.eqb sc (map symbol_item rs))).
Proof.
  revert zc sc; induction items as [|[k c] items IH]; intros zc sc; simpl.
  - reflexivity.
  - unfold resolve_item at 1. simpl.
    destruct (resolve T k) as [[z s]|e]; simpl; [|reflexivity].
    rewrite IH. destruct (mapM (resolve_item T) items); reflexivity.
Qed.

Lemma init_eq atom_count charge :
  __init__ T atom_count charge =
  (rs <- mapM (resolve_item T) atom_count ;;
   Ok {| _z_to_count := dict_of_items Z.eqb (map z_item rs);
         _symbol_to_count := dict_of_items String.eqb (map symbol_item rs);
         _charge := charge |}).
Proof.
  unfold __init__. rewrite init_loop_eq.
  destruct (mapM (resolve_item T) atom_count); reflexivity.
Qed.

(** *** What holds of every constructed formula *)

Lemma resolve_symbol_ok k z s :
  table_capitalized T -> resolve T k = Ok (z, s) -> symbol_ok T s.
Proof.
  intros Hcap. destruct k as [z0|s0|]; simpl; [| |discriminate].
  - intros H. apply bind_ok_inv in H as (s' & Hs & H). injection H as <- <-.
    apply Z_TO_SYMBOL_row in Hs as (r & Hin & _ & <-). split.
    + unfold table_capitalized in Hcap. rewrite Forall_forall in Hcap. auto.
    + apply row_SYMBOL_TO_Z. exact Hin.
  - intros H. apply bind_ok_inv in H as (z' & Hz & H). injection H as <- <-.
    split; [|eauto].
    destruct (SYMBOL_TO_Z_row _ _ Hz) as (r & Hin & _ & Hsym).
    unfold table_capitalized in Hcap. rewrite Forall_forall in Hcap.
    rewrite <- Hsym. exact (Hcap r Hin).
Qed.

Lemma init_symbols_ok atom_count charge f :
  table_capitalized T -> __init__ T atom_count charge = Ok f ->
  NoDup (dict_keys (_symbol_to_count f))
  /\ Forall (symbol_ok T) (dict_keys (_symbol_to_count f)).
Proof.
  intros Hcap. rewrite init_eq. intros H.
  apply bind_ok_inv in H as (rs & Hrs & H). injection H as <-. simpl. split.
  - apply (dict_of_items_keys_NoDup String.eqb String.eqb_eq).
  - apply Forall_forall. intros s Hs.
    apply (proj1 (dict_of_items_keys_in String.eqb String.eqb_eq _ _)) in Hs.
    rewrite map_map in Hs. apply in_map_iff in Hs as ([[z s'] c] & Heq & Hin).
    simpl in Heq. subst s'.
    apply mapM_ok_inv in Hrs.
    assert (Hex : exists kv, resolve_item T kv = Ok (z, s, c)).
    { clear -Hrs Hin. induction Hrs as [|kv r ? ? Hr _ IH]; [destruct Hin|].
      destruct Hin as [->|Hin]; eauto. }
    destruct Hex as (kv & Hkv). unfold resolve_item in Hkv.
    apply bind_ok_inv in Hkv as ([z' s'] & Hres & Hkv). injection Hkv as -> -> _.
    eapply resolve_symbol_ok; eauto.
Qed.

(** Constructing from symbols in normal form, all known and pairwise
    distinct, keeps the items as they come. *)
Lemma init_symbol_items (items : list (string * Z)) charge :
  NoDup (map fst items) -> Forall (symbol_ok T) (map fst items) ->
  exists zc,
    __init__ T (map (fun kv => (KStr (fst kv), snd kv)) items) charge
    = Ok {| _z_to_count := zc; _symbol_to_count := items; _charge := charge |}.
Proof.
  intros Hnd Hok. rewrite init_eq.
  assert (Hrs : exists rs,
    mapM (resolve_item T) (map (fun kv => (KStr (fst kv), snd kv)) items) = Ok rs
    /\ map symbol_item rs = items).
  { clear Hnd. induction items as [|[s c] items IH]; simpl.
    - exists []. auto.
    - inversion Hok as [|? ? [Hs (z & Hz)] Hok']; subst.
      destruct (IH Hok') as (rs & Hrs & Hmap).
      exists ((z, s, c) :: rs). unfold resolve_item at 1. simpl.
      rewrite Hs, Hz. simpl. rewrite Hrs. simpl.
      split; [reflexivity|]. rewrite Hmap. reflexivity. }
  destruct Hrs as (rs & -> & Hmap). simpl. rewrite Hmap.
  rewrite (dict_of_items_NoDup String.eqb String.eqb_eq) by assumption.
  eauto.
Qed.
End FormulaFacts.

(** ** Sorting a formula *)

Lemma sorted_decorated {A K : Type} (ltb : K -> K -> bool) (k : A -> K) (l : list A) :
  sorted ltb fst (map (fun a => (k a, a)) l)
  = map (fun a => (k a, a)) (sorted ltb k l).
Proof.
  induction l as [|x l IH]; simpl; [reflexivity|]. rewrite IH.
  generalize (sorted ltb k l) as m. clear IH.
  induction m as [|y m IHm]; simpl; [reflexivity|].
  destruct (ltb (k y) (k x)); simpl; [rewrite IHm|]; reflexivity.
Qed.

Lemma filter_all_true {A : Type} (p : A -> bool) (l : list A) :
  Forall (fun a => p a = true) l -> filter p l = l.
Proof.
  induction 1 as [|a l Ha _ IH]; simpl; [reflexivity|]. rewrite Ha, IH. reflexivity.
Qed.

Section SortFacts.
Variable T : list element_row.

Lemma reorder_keys counts elements : map fst (reorder counts elements) = elements.
Proof. unfold reorder. rewrite map_map. simpl. apply map_id. Qed.

Lemma reorder_self counts :
  NoDup (dict_keys counts) -> reorder counts (dict_keys counts) = counts.
Proof. apply (dict_items_of_keys String.eqb String.eqb_eq). Qed.

Lemma reorder_perm counts elements :
  NoDup (dict_keys counts) -> Permutation elements (dict_keys counts) ->
  Permutation (reorder counts elements) counts.
Proof.
  intros Hnd Hp. rewrite <- (reorder_self counts Hnd) at 2.
  apply Permutation_map. exact Hp.
Qed.

Lemma getitems_ok counts elements :
  Forall (fun s => In s (dict_keys counts)) elements ->
  mapM (fun symbol => c <- getitem_str counts symbol ;; Ok (symbol, c)) elements
  = Ok (reorder counts elements).
Proof.
  intros H. apply mapM_ok_map. intros s Hs.
  rewrite Forall_forall in H. specialize (H s Hs).
  unfold getitem_str, count_of.
  destruct (dict_get String.eqb counts s) eqn:E; [reflexivity|].
  apply (dict_get_none String.eqb String.eqb_eq) in E. contradiction.
Qed.

(** Once the order of the elements is known and is an arrangement of
    the keys, [_sort_iupac] constructs from the items in that order. *)
Lemma sort_iupac_eq self elements :
  sorted_elements T (_symbol_to_count self) = Ok elements ->
  Permutation elements (dict_keys (_symbol_to_count self)) ->
  NoDup (dict_keys (_symbol_to_count self)) ->
  _sort_iupac T self
  = __init__ T (map (fun kv => (KStr (fst kv), snd kv))
                    (reorder (_symbol_to_count self) elements))
               (_charge self).
Proof.
  intros Hse Hp Hnd. unfold _sort_iupac. rewrite Hse. simpl.
  rewrite getitems_ok.
  - simpl. rewrite (dict_of_items_NoDup String.eqb String.eqb_eq); [reflexivity|].
    rewrite reorder_keys. eapply Permutation_NoDup; [symmetry|]; eauto.
  - apply Forall_forall. intros s Hs. eapply Permutation_in; eauto.
Qed.

Lemma sort_iupac_reorder self elements :
  sorted_elements T (_symbol_to_count self) = Ok elements ->
  Permutation elements (dict_keys (_symbol_to_count self)) ->
  NoDup (dict_keys (_symbol_to_count self)) ->
  Forall (symbol_ok T) (dict_keys (_symbol_to_count self)) ->
  exists zc,
    _sort_iupac T self
    = Ok {| _z_to_count := zc;
            _symbol_to_count := reorder (_symbol_to_count self) elements;
            _charge := _charge self |}.
Proof.
  intros Hse Hp Hnd Hok. rewrite (sort_iupac_eq self elements Hse Hp Hnd).
  apply init_symbol_items; rewrite reorder_keys.
  - eapply Permutation_NoDup; [symmetry|]; eauto.
  - eapply Permutation_Forall; [symmetry|]; eauto.
Qed.

(** *** Without carbon *)

Lemma en_sorter_ok s :
  symbol_ok T s -> en_sorter T s = Ok (en_of T s).
Proof.
  intros [_ (z & Hz)]. unfold en_of, en_sorter. rewrite Hz. simpl.
  apply SYMBOL_TO_Z_row in Hz as (r & Hin & <- & _).
  destruct (row_Z_TO_EN T r Hin) as (en & ->). reflexivity.
Qed.

Lemma sorted_elements_en counts :
  dict_contains String.eqb counts "C" = false ->
  Forall (symbol_ok T) (dict_keys counts) ->
  sorted_elements T counts = Ok (sorted en_ltb (en_of T) (dict_keys counts)).
Proof.
  intros HC Hok. unfold sorted_elements. rewrite HC.
  rewrite (mapM_ok_map _ (fun e => (en_of T e, e))).
  - simpl. rewrite sorted_decorated, map_map. simpl. rewrite map_id. reflexivity.
  - intros s Hs. rewrite Forall_forall in Hok.
    rewrite (en_sorter_ok s (Hok s Hs)). reflexivity.
Qed.

(** *** With carbon *)

Lemma sorted_elements_carbon counts :
  dict_contains String.eqb counts "C" = true ->
  sorted_elements T counts = Ok (carbon_order counts).
Proof. intros HC. unfold sorted_elements. rewrite HC. reflexivity. Qed.

Lemma not_C_or_H_true e : not_C_or_H e = true <-> e <> "C" /\ e <> "H".
Proof.
  unfold not_C_or_H. rewrite negb_true_iff, orb_false_iff, !String.eqb_neq. tauto.
Qed.

Lemma carbon_order_perm counts :
  NoDup (dict_keys counts) ->
  In "C" (dict_keys counts) -> In "H" (dict_keys counts) ->
  Permutation (carbon_order counts) (dict_keys counts).
Proof.
  intros Hnd HC HH. unfold carbon_order.
  set (rest := sorted _ _ _).
  assert (Hrest : forall x, In x rest <-> In x (dict_keys counts) /\ not_C_or_H x = true).
  { intros x. unfold rest. rewrite sorted_in. apply filter_In. }
  apply NoDup_Permutation.
  - assert (Hr : NoDup rest).
    { unfold rest. eapply Permutation_NoDup.
      - symmetry. apply sorted_perm.
      - apply NoDup_filter. exact Hnd. }
    constructor; [|constructor; [|exact Hr]].
    + simpl. intros [H|H]; [discriminate|]. apply Hrest in H as [_ H].
      apply not_C_or_H_true in H. tauto.
    + intros H. apply Hrest in H as [_ H]. apply not_C_or_H_true in H. tauto.
  - exact Hnd.
  - intros x. simpl. rewrite Hrest, not_C_or_H_true. split.
    + intros [<-|[<-|[H _]]]; assumption.
    + intros H. destruct (String.eqb_spec x "C") as [->|HnC]; [auto|].
      destruct (String.eqb_spec x "H") as [->|HnH]; [auto|].
      right; right. auto.
Qed.

(** With carbon and without hydrogen, reading the count of ["H"] raises. *)
Lemma sort_iupac_no_hydrogen self :
  dict_contains String.eqb (_symbol_to_count self) "C" = true ->
  dict_contains String.eqb (_symbol_to_count self) "H" = false ->
  _sort_iupac T self = Raise (KeyError_str "H").
Proof.
  intros HC HH. unfold _sort_iupac. rewrite sorted_elements_carbon by assumption.
  simpl. unfold dict_contains in HC, HH. unfold getitem_str.
  destruct (dict_get String.eqb (_symbol_to_count self) "C"); [|discriminate].
  destruct (dict_get String.eqb (_symbol_to_count self) "H"); [discriminate|].
  reflexivity.
Qed.

(** *** A successful sort rearranges the items *)

Lemma sort_iupac_ok_inv self f :
  NoDup (dict_keys (_symbol_to_count self)) ->
  Forall (symbol_ok T) (dict_keys (_symbol_to_count self)) ->
  _sort_iupac T self = Ok f ->
  exists elements,
    sorted_elements T (_symbol_to_count self) = Ok elements
    /\ Permutation elements (dict_keys (_symbol_to_count self))
    /\ _symbol_to_count f = reorder (_symbol_to_count self) elements
    /\ _charge f = _charge self.
Proof.
  intros Hnd Hok Hsort.
  assert (Hex : exists elements,
    sorted_elements T (_symbol_to_count self) = Ok elements
    /\ Permutation elements (dict_keys (_symbol_to_count self))).
  { destruct (dict_contains String.eqb (_symbol_to_count self) "C") eqn:HC.
    - destruct (dict_contains String.eqb (_symbol_to_count self) "H") eqn:HH.
      + exists (carbon_order (_symbol_to_count self)). split.
        * apply sorted_elements_carbon. exact HC.
        * apply carbon_order_perm; [exact Hnd | |];
            apply (dict_contains_in String.eqb String.eqb_eq); assumption.
      + rewrite sort_iupac_no_hydrogen in Hsort by assumption. discriminate.
    - exists (sorted en_ltb (en_of T) (dict_keys (_symbol_to_count self))). split.
      + apply sorted_elements_en; assumption.
      + apply sorted_perm. }
  destruct Hex as (elements & Hse & Hp). exists elements.
  destruct (sort_iupac_reorder self elements Hse Hp Hnd Hok) as (zc & Heq).
  rewrite Heq in Hsort. injection Hsort as <-. simpl. auto.
Qed.
End SortFacts.

(** ** Rendering *)

Lemma append_nil_r s : s ++ "" = s.
Proof. induction s as [|c s IH]; simpl; [|rewrite IH]; reflexivity. Qed.

Lemma append_assoc s t u : (s ++ t) ++ u = s ++ t ++ u.
Proof. induction s as [|c s IH]; simpl; [|rewrite IH]; reflexivity. Qed.

Lemma concat_cons x l : String.concat "" (x :: l) = x ++ String.concat "" l.
Proof. destruct l; simpl; [rewrite append_nil_r|]; reflexivity. Qed.

Lemma concat_app l1 l2 :
  String.concat "" (l1 ++ l2) = String.concat "" l1 ++ String.concat "" l2.
Proof.
  induction l1 as [|x l1 IH]; [reflexivity|].
  rewrite <- app_comm_cons, !concat_cons, IH, append_assoc. reflexivity.
Qed.

(** The rendering is the parts of the elements in the order of the
    dictionary, then the part of the charge. *)
Lemma latex_eq self :
  latex self
  = String.concat "" (map latex_part (_symbol_to_count self))
      ++ charge_suffix (_charge self).
Proof.
  unfold latex, latex_charge, charge_suffix. rewrite concat_app.
  destruct (_charge self =? 0); simpl; reflexivity.
Qed.

Lemma latex_part_one symbol : latex_part (symbol, 1) = symbol.
Proof. reflexivity. Qed.

Lemma latex_part_other symbol count :
  count <> 1 ->
  latex_part (symbol, count) = symbol ++ "\textsubscript{" ++ str_int count ++ "}".
Proof. intros H. simpl. apply Z.eqb_neq in H. rewrite H. reflexivity. Qed.

Lemma charge_suffix_zero : charge_suffix 0 = "".
Proof. reflexivity. Qed.

Lemma charge_suffix_positive charge :
  0 < charge ->
  charge_suffix charge
  = "\textsuperscript{" ++ (if charge =? 1 then "" else str_int charge) ++ "+}".
Proof.
  intros H. unfold charge_suffix.
  replace (charge =? 0) with false by (symmetry; apply Z.eqb_neq; lia).
  replace (0 <? charge) with true by (symmetry; apply Z.ltb_lt; lia).
  rewrite Z.abs_eq by lia. reflexivity.
Qed.

Lemma charge_suffix_negative charge :
  charge < 0 ->
  charge_suffix charge
  = "\textsuperscript{" ++ (if charge =? -1 then "" else str_int (- charge))
      ++ minus_glyph ++ "}".
Proof.
  intros H. unfold charge_suffix.
  replace (charge =? 0) with false by (symmetry; apply Z.eqb_neq; lia).
  replace (0 <? charge) with false by (symmetry; apply Z.ltb_ge; lia).
  rewrite Z.abs_neq by lia.
  replace (- charge =? 1) with (charge =? -1); [reflexivity|].
  destruct (Z.eqb_spec charge (-1)), (Z.eqb_spec (- charge) 1); lia || reflexivity.
Qed.

(** The glyph of the negative charge is not the en dash. *)
Lemma minus_glyph_not_en_dash : minus_glyph <> en_dash.
Proof. discriminate. Qed.

(** The two glyphs as string literals. *)
Example minus_glyph_literal : minus_glyph = "â€“".
Proof. reflexivity. Qed.

Example en_dash_literal : en_dash = "–".
Proof. reflexivity. Qed.

(** C3 (the code departs from it).  For a negative charge the superscript
    ends with the eight bytes of [minus_glyph], the text an en dash turns
    into when its UTF-8 bytes are read as Windows-1252, and not with the en
    dash: the oxide ion, charge -2, is rendered with [2] and this glyph. *)
Theorem latex_charge_minus_two_glyph :
  (f <- __init__ periodic_table_excerpt [(KStr "O", 1)] (-2) ;; Ok (latex f))
  = Ok ("O\textsuperscript{2" ++ minus_glyph ++ "}")
  /\ "O\textsuperscript{2" ++ minus_glyph ++ "}"
     <> "O\textsuperscript{2" ++ en_dash ++ "}".
Proof. split; [reflexivity | discriminate]. Qed.

(** ** Objects of the heap *)

Lemma deref_alloc_old h obj p o :
  deref h p = Some o -> deref (snd (alloc h obj)) p = Some o.
Proof.
  unfold deref, alloc. simpl. intros H.
  rewrite nth_error_app1; [exact H|]. apply nth_error_Some. congruence.
Qed.

Lemma deref_alloc_new h obj :
  deref h (fst (alloc h obj)) = None
  /\ deref (snd (alloc h obj)) (fst (alloc h obj)) = Some obj.
Proof.
  unfold deref, alloc. simpl. split.
  - apply nth_error_None. lia.
  - rewrite nth_error_app2 by lia. rewrite Nat.sub_diag. reflexivity.
Qed.

Lemma returning_ok_inv h r p h' :
  returning h r = (Ok p, h') ->
  exists obj, r = Ok obj /\ deref h p = None /\ deref h' p = Some obj
    /\ forall q o, deref h q = Some o -> deref h' q = Some o.
Proof.
  destruct r as [obj|e]; simpl; [|discriminate].
  intros H. injection H as <- <-. exists obj.
  destruct (deref_alloc_new h obj) as [Hnone Hsome].
  repeat split; try assumption.
  intros q o. apply deref_alloc_old.
Qed.

(** C9.  A call of [sort] with a method other than ["iupac"] raises
    [ValueError] (the spec's InvalidSortMethod) and leaves the heap, and
    so the receiver, as it was. *)
Theorem sort_invalid_method T h self obj method :
  method <> "iupac" ->
  deref h self = Some obj ->
  sort T obj method = Raise (ValueError method)
  /\ call_sort T h self method = Some (Raise (ValueError method), h).
Proof.
  intros Hm Hself. apply String.eqb_neq in Hm.
  unfold call_sort, sort. rewrite Hself, Hm. split; reflexivity.
Qed.

Lemma sort_invalid_method_witness :
  let h := snd (new periodic_table_excerpt [] [(KStr "H", 2); (KStr "O", 1)] 0) in
  deref h 0%nat
    = Some {| _z_to_count := [(1, 2); (8, 1)];
              _symbol_to_count := [("H", 2); ("O", 1)]; _charge := 0 |}
  /\ call_sort periodic_table_excerpt h 0%nat "hill"
     = Some (Raise (ValueError "hill"), h).
Proof.
  split; [reflexivity|].
  refine (proj2 (sort_invalid_method periodic_table_excerpt _ 0%nat _ "hill" _ _)).
  - discriminate.
  - reflexivity.
Defined.

(** ** The order with carbon *)

(** C1 (the code departs from it).  On a formula with carbon and without
    hydrogen, [sort] with ["iupac"] does not skip hydrogen: it puts ["H"]
    second in the order all the same, reads its count and raises
    [KeyError]. *)
Theorem sort_iupac_carbon_without_hydrogen T atom_count charge self :
  __init__ T atom_count charge = Ok self ->
  dict_contains String.eqb (_symbol_to_count self) "C" = true ->
  dict_contains String.eqb (_symbol_to_count self) "H" = false ->
  sort T self "iupac" = Raise (KeyError_str "H").
Proof.
  intros _ HC HH. unfold sort. simpl. apply sort_iupac_no_hydrogen; assumption.
Qed.

Lemma sort_iupac_carbon_without_hydrogen_witness :
  __init__ periodic_table_excerpt [(KStr "C", 1); (KStr "O", 2)] 0
    = Ok {| _z_to_count := [(6, 1); (8, 2)];
            _symbol_to_count := [("C", 1); ("O", 2)]; _charge := 0 |}
  /\ sort periodic_table_excerpt
       {| _z_to_count := [(6, 1); (8, 2)];
          _symbol_to_count := [("C", 1); ("O", 2)]; _charge := 0 |} "iupac"
     = Raise (KeyError_str "H").
Proof.
  split; [reflexivity|].
  apply (sort_iupac_carbon_without_hydrogen periodic_table_excerpt
           [(KStr "C", 1); (KStr "O", 2)] 0); reflexivity.
Defined.

(** The symbols after ["C"] and ["H"] ascend strictly. *)
Lemma carbon_order_rest_sorted (counts : dict string Z) :
  NoDup (dict_keys counts) ->
  Sorted (fun a b => String.ltb a b = true)
    (sorted String.ltb (fun e => e) (filter not_C_or_H (dict_keys counts))).
Proof.
  intros Hnd.
  assert (Hnd' : NoDup (sorted String.ltb (fun e => e)
                          (filter not_C_or_H (dict_keys counts)))).
  { eapply Permutation_NoDup; [symmetry; apply sorted_perm|].
    apply NoDup_filter. exact Hnd. }
  pose proof (sorted_Sorted String.ltb (fun e : string => e) string_ltb_asym
                (filter not_C_or_H (dict_keys counts))) as Hs.
  induction Hs as [|a l Hs IH Hhd]; constructor.
  - apply IH. inversion Hnd'; assumption.
  - destruct Hhd as [|b l Hab]; constructor.
    unfold precedes in Hab. unfold String.ltb in *.
    rewrite (String.compare_antisym a b).
    destruct (String.compare b a) eqn:E; simpl; try reflexivity; try discriminate.
    apply String.compare_eq_iff in E. subst.
    inversion Hnd' as [|? ? Hni _]. simpl in Hni. tauto.
Qed.

(** With carbon and hydrogen, the sorted formula lists carbon, hydrogen,
    and the other symbols in ascending order, with the counts they had. *)
Lemma sort_iupac_carbon_hydrogen T atom_count charge self :
  table_capitalized T ->
  __init__ T atom_count charge = Ok self ->
  dict_contains String.eqb (_symbol_to_count self) "C" = true ->
  dict_contains String.eqb (_symbol_to_count self) "H" = true ->
  exists f rest,
    sort T self "iupac" = Ok f
    /\ dict_keys (_symbol_to_count f) = ("C" :: "H" :: rest)%list
    /\ Sorted (fun a b => String.ltb a b = true) rest
    /\ Permutation rest (filter not_C_or_H (dict_keys (_symbol_to_count self)))
    /\ Permutation (_symbol_to_count f) (_symbol_to_count self)
    /\ _charge f = _charge self.
Proof.
  intros Hcap Hinit HC HH.
  destruct (init_symbols_ok T _ _ _ Hcap Hinit) as [Hnd Hok].
  assert (Hp : Permutation (carbon_order (_symbol_to_count self))
                 (dict_keys (_symbol_to_count self))).
  { apply carbon_order_perm; [exact Hnd | |];
      apply (dict_contains_in String.eqb String.eqb_eq); assumption. }
  destruct (sort_iupac_reorder T self _ (sorted_elements_carbon T _ HC) Hp Hnd Hok)
    as (zc & Hsort).
  exists {| _z_to_count := zc;
            _symbol_to_count := reorder (_symbol_to_count self)
                                  (carbon_order (_symbol_to_count self));
            _charge := _charge self |},
    (sorted String.ltb (fun e => e)
       (filter not_C_or_H (dict_keys (_symbol_to_count self)))).
  split; [exact Hsort|].
  split; [apply (reorder_keys _ (carbon_order _))|].
  split; [apply carbon_order_rest_sorted; exact Hnd|].
  split; [apply sorted_perm|].
  split; [apply reorder_perm; assumption | reflexivity].
Qed.

(** C4, the claim as it stands fails: the oxygen of [{O:2, H:1, C:1}] has
    the count 2, and the rendering of the sorted formula is not ["CHO"]. *)
Lemma render_O2HC_not_CHO :
  (f <- __init__ periodic_table_excerpt
          [(KStr "O", 2); (KStr "H", 1); (KStr "C", 1)] 0 ;;
   g <- sort periodic_table_excerpt f "iupac" ;;
   Ok (dict_keys (_symbol_to_count g), latex g))
  <> Ok (["C"; "H"; "O"], "CHO").
Proof. discriminate. Qed.

(** C4, amended.  Whatever the table, as long as it knows the three
    symbols: the formula made from [{O:2, H:1, C:1}] with charge 0 and
    sorted with ["iupac"] has the order C, H, O and is rendered with the
    count of the oxygen as a subscript. *)
Theorem sort_render_O2HC T zO zH zC :
  getitem_str (_SYMBOL_TO_Z T) "O" = Ok zO ->
  getitem_str (_SYMBOL_TO_Z T) "H" = Ok zH ->
  getitem_str (_SYMBOL_TO_Z T) "C" = Ok zC ->
  exists f g,
    __init__ T [(KStr "O", 2); (KStr "H", 1); (KStr "C", 1)] 0 = Ok f
    /\ sort T f "iupac" = Ok g
    /\ dict_keys (_symbol_to_count g) = ["C"; "H"; "O"]
    /\ latex g = "CHO\textsubscript{2}".
Proof.
  intros HO HH HC.
  assert (Hinit : forall items,
    map fst items = ["O"; "H"; "C"] \/ map fst items = ["C"; "H"; "O"] ->
    exists zc, __init__ T (map (fun kv => (KStr (fst kv), snd kv)) items) 0
               = Ok {| _z_to_count := zc; _symbol_to_count := items; _charge := 0 |}).
  { intros items Hk. apply init_symbol_items.
    - destruct Hk as [-> | ->];
        repeat (constructor; [simpl; intuition discriminate|]); constructor.
    - assert (HsO : symbol_ok T "O") by (split; [reflexivity | eauto]).
      assert (HsH : symbol_ok T "H") by (split; [reflexivity | eauto]).
      assert (HsC : symbol_ok T "C") by (split; [reflexivity | eauto]).
      destruct Hk as [-> | ->]; repeat apply Forall_cons; auto. }
  destruct (Hinit [("O", 2); ("H", 1); ("C", 1)]) as (zc & Hf); [auto|].
  destruct (Hinit [("C", 1); ("H", 1); ("O", 2)]) as (zc' & Hg); [auto|].
  simpl in Hf, Hg. eexists. eexists. split; [exact Hf|].
  split; [exact Hg|].
  split; reflexivity.
Qed.

Lemma sort_render_O2HC_witness :
  exists f g,
    __init__ periodic_table_excerpt [(KStr "O", 2); (KStr "H", 1); (KStr "C", 1)] 0
      = Ok f
    /\ sort periodic_table_excerpt f "iupac" = Ok g
    /\ dict_keys (_symbol_to_count g) = ["C"; "H"; "O"]
    /\ latex g = "CHO\textsubscript{2}".
Proof.
  apply (sort_render_O2HC periodic_table_excerpt 8 1 6); reflexivity.
Defined.

(** ** The order without carbon *)

Lemma StronglySorted_map {A B : Type} (R : B -> B -> Prop) (f : A -> B) l :
  StronglySorted (fun x y => R (f x) (f y)) l -> StronglySorted R (map f l).
Proof.
  induction 1 as [|a l _ IH Hall]; simpl; constructor; [exact IH|].
  apply Forall_map. exact Hall.
Qed.

Lemma map_eq_app_inv {A B : Type} (f : A -> B) l l1 l2 :
  map f l = (l1 ++ l2)%list ->
  exists m1 m2, l = (m1 ++ m2)%list /\ map f m1 = l1 /\ map f m2 = l2.
Proof.
  revert l; induction l1 as [|b l1 IH]; intros l H; simpl in H.
  - exists [], l. auto.
  - destruct l as [|a l]; [discriminate|]. simpl in H. injection H as Hb H.
    destruct (IH l H) as (m1 & m2 & -> & <- & <-).
    exists (a :: m1), m2. simpl. rewrite Hb. auto.
Qed.

Lemma en_sorter_pauling T s en :
  pauling T s = Some en -> en_sorter T s = Ok (en_key_of en).
Proof.
  unfold pauling, en_sorter, getitem_str, getitem_int.
  destruct (dict_get String.eqb (_SYMBOL_TO_Z T) s) as [z|]; [|discriminate].
  simpl. intros ->. destruct en; reflexivity.
Qed.

Lemma en_of_pauling T s en : pauling T s = Some en -> en_of T s = en_key_of en.
Proof. intros H. unfold en_of. rewrite (en_sorter_pauling T s en H). reflexivity. Qed.

Lemma symbol_ok_pauling T s : symbol_ok T s -> exists en, pauling T s = Some en.
Proof.
  intros [_ (z & Hz)]. pose proof Hz as Hrow.
  apply SYMBOL_TO_Z_row in Hrow as (r & Hin & <- & _).
  destruct (row_Z_TO_EN T r Hin) as (en & Hen). exists en.
  unfold pauling. unfold getitem_str in Hz. unfold getitem_int in Hen.
  destruct (dict_get String.eqb (_SYMBOL_TO_Z T) s); [|discriminate].
  injection Hz as ->.
  destruct (dict_get Z.eqb (_Z_TO_EN T) (col_z r)); [congruence | discriminate].
Qed.

Lemma pauling_le_en_le a b : en_le (en_key_of a) (en_key_of b) <-> pauling_le a b.
Proof. destruct a, b; simpl; tauto. Qed.

Lemma has_pauling_ties T v x y :
  has_pauling T v x = true -> has_pauling T v y = true ->
  en_ltb (en_of T y) (en_of T x) = false.
Proof.
  unfold has_pauling.
  destruct (pauling T x) as [ex|] eqn:Ex; [|discriminate].
  destruct (pauling T y) as [ey|] eqn:Ey; [|discriminate].
  rewrite (en_of_pauling T x ex Ex), (en_of_pauling T y ey Ey). intros Hx Hy.
  apply (en_eqb_ties (en_key_of v)); destruct ex, ey, v; simpl; congruence.
Qed.

Lemma NoDup_map_inj_in {A B : Type} (f : A -> B) l x y :
  NoDup (map f l) -> In x l -> In y l -> f x = f y -> x = y.
Proof.
  induction l as [|a l IH]; simpl; [tauto|]. intros Hnd Hx Hy Heq.
  inversion Hnd as [|? ? Hni Hnd']; subst.
  destruct Hx as [->|Hx], Hy as [->|Hy]; auto.
  - exfalso. apply Hni. rewrite Heq. apply in_map. exact Hy.
  - exfalso. apply Hni. rewrite <- Heq. apply in_map. exact Hx.
Qed.

(** When no atomic number has two rows, the electronegativity the
    dictionaries give for a symbol is the one in the row of the symbol. *)
Lemma pauling_row T s en :
  table_z_unique T -> pauling T s = Some en ->
  exists r, In r T /\ col_symbol r = s /\ col_en_pauling r = en.
Proof.
  intros Hu. unfold pauling.
  destruct (dict_get String.eqb (_SYMBOL_TO_Z T) s) as [z|] eqn:Ez; [|discriminate].
  intros Hen.
  apply (dict_of_items_get_in String.eqb String.eqb_eq) in Ez.
  apply in_map_iff in Ez as (r1 & Hr1 & Hin1). injection Hr1 as Hs1 Hz1.
  apply (dict_of_items_get_in Z.eqb Z.eqb_eq) in Hen.
  apply in_map_iff in Hen as (r2 & Hr2 & Hin2). injection Hr2 as Hz2 Hen2.
  assert (r1 = r2).
  { apply (NoDup_map_inj_in col_z T); try assumption. congruence. }
  subst r2. eauto.
Qed.

Lemma StronglySorted_impl_in {A : Type} (R R' : A -> A -> Prop) l :
  (forall x y, In x l -> In y l -> R x y -> R' x y) ->
  StronglySorted R l -> StronglySorted R' l.
Proof.
  intros Himp Hs. induction Hs as [|a l Hs IH Hall]; constructor.
  - apply IH. intros x y Hx Hy. apply Himp; right; assumption.
  - rewrite Forall_forall in *. intros y Hy.
    apply Himp; [left; reflexivity | right; exact Hy | auto].
Qed.

(** In a list of electronegativities in ascending order the defined ones
    come first. *)
Lemma ascending_defined_first (ens : list (option Q)) :
  StronglySorted pauling_le ens ->
  exists fin inf,
    ens = (fin ++ inf)%list
    /\ Forall (fun en => exists q, en = Some q) fin
    /\ Forall (fun en => en = None) inf.
Proof.
  induction 1 as [|en ens _ (fin & inf & -> & Hfin & Hinf) Hall].
  - exists [], []. auto.
  - destruct en as [q|].
    + exists (Some q :: fin), inf. repeat split; eauto.
    + exists [], (None :: fin ++ inf)%list. repeat split; [constructor|].
      constructor; [reflexivity|].
      apply Forall_forall. intros k Hk. rewrite Forall_forall in Hall.
      specialize (Hall k Hk). destruct k; simpl in Hall; tauto.
Qed.

(** C2.  A formula without carbon is sorted by ["iupac"] into a formula
    with the same items and the same charge whose symbols ascend by the
    Pauling electronegativity the table holds for them: every symbol of
    the result has an entry, the entries in the order of the result
    ascend with an undefined one above every defined one (it is sorted as
    [inf]), so that the symbols with a defined electronegativity come
    before those without, and the symbols whose electronegativities
    compare equal, among them those without one, stand in the order they
    had.  The key [en_sorter] gives is that electronegativity, [inf] for
    an undefined one, and it is the value in the row of the symbol when no
    atomic number has two rows. *)
Theorem sort_iupac_without_carbon T atom_count charge self :
  table_capitalized T ->
  __init__ T atom_count charge = Ok self ->
  dict_contains String.eqb (_symbol_to_count self) "C" = false ->
  exists f ens,
    sort T self "iupac" = Ok f
    /\ Forall2 (fun s en => pauling T s = Some en)
         (dict_keys (_symbol_to_count f)) ens
    /\ StronglySorted pauling_le ens
    /\ (exists defined undefined,
          dict_keys (_symbol_to_count f) = (defined ++ undefined)%list
          /\ Forall (fun s => exists q, pauling T s = Some (Some q)) defined
          /\ Forall (fun s => pauling T s = Some None) undefined)
    /\ (forall v, filter (has_pauling T v) (dict_keys (_symbol_to_count f))
                  = filter (has_pauling T v) (dict_keys (_symbol_to_count self)))
    /\ mapM (en_sorter T) (dict_keys (_symbol_to_count f)) = Ok (map en_key_of ens)
    /\ (table_z_unique T ->
        Forall2 (fun s en => exists r, In r T /\ col_symbol r = s
                                       /\ col_en_pauling r = en)
          (dict_keys (_symbol_to_count f)) ens)
    /\ Permutation (_symbol_to_count f) (_symbol_to_count self)
    /\ _charge f = _charge self.
Proof.
  intros Hcap Hinit HC.
  destruct (init_symbols_ok T _ _ _ Hcap Hinit) as [Hnd Hok].
  set (counts := _symbol_to_count self) in *.
  set (elements := sorted en_ltb (en_of T) (dict_keys counts)).
  assert (Hp : Permutation elements (dict_keys counts)) by apply sorted_perm.
  destruct (sort_iupac_reorder T self elements
              (sorted_elements_en T counts HC Hok) Hp Hnd Hok) as (zc & Hsort).
  assert (Hok' : Forall (symbol_ok T) elements).
  { eapply Permutation_Forall; [symmetry|]; eauto. }
  set (value := fun s => match pauling T s with Some en => en | None => None end).
  assert (Hval : forall s, In s elements -> pauling T s = Some (value s)).
  { intros s Hs. rewrite Forall_forall in Hok'.
    destruct (symbol_ok_pauling T s (Hok' s Hs)) as (en & Hen).
    unfold value. rewrite Hen. reflexivity. }
  assert (HF2 : Forall2 (fun s en => pauling T s = Some en) elements
                  (map value elements)).
  { clear -Hval. induction elements as [|s l IH]; simpl; constructor.
    - apply Hval. left. reflexivity.
    - apply IH. intros t Ht. apply Hval. right. exact Ht. }
  assert (Hss : StronglySorted pauling_le (map value elements)).
  { apply StronglySorted_map.
    apply (StronglySorted_impl_in (precedes en_ltb (en_of T))).
    - intros x y Hx Hy Hxy. unfold precedes in Hxy.
      rewrite (en_of_pauling T x _ (Hval x Hx)) in Hxy.
      rewrite (en_of_pauling T y _ (Hval y Hy)) in Hxy.
      apply pauling_le_en_le, en_ltb_false. exact Hxy.
    - apply Sorted_StronglySorted.
      + intros x y z Hxy Hyz. unfold precedes in *.
        apply en_ltb_false in Hxy, Hyz. apply en_ltb_false.
        exact (en_le_trans _ _ _ Hxy Hyz).
      + apply (sorted_Sorted en_ltb (en_of T) en_ltb_asym). }
  exists {| _z_to_count := zc; _symbol_to_count := reorder counts elements;
            _charge := _charge self |}, (map value elements).
  cbn [_symbol_to_count _charge].
  assert (Hk : dict_keys (reorder counts elements) = elements)
    by apply reorder_keys.
  rewrite !Hk.
  split; [exact Hsort|]. split; [exact HF2|]. split; [exact Hss|].
  split; [|split; [|split; [|split;
    [|split; [apply reorder_perm; assumption | reflexivity]]]]].
  - destruct (ascending_defined_first _ Hss) as (fin & inf & Heq & Hfin & Hinf).
    apply map_eq_app_inv in Heq as (defined & undefined & Heq & <- & <-).
    exists defined, undefined. split; [exact Heq|].
    assert (Hd : forall s, In s defined -> In s elements).
    { intros s Hs. rewrite Heq. apply in_or_app. left. exact Hs. }
    assert (Hu : forall s, In s undefined -> In s elements).
    { intros s Hs. rewrite Heq. apply in_or_app. right. exact Hs. }
    rewrite Forall_forall in Hfin, Hinf.
    split; apply Forall_forall; intros s Hs.
    + destruct (Hfin (value s)) as (q & Hq); [apply in_map; exact Hs|].
      exists q. rewrite <- Hq. apply Hval. auto.
    + rewrite <- (Hinf (value s)); [|apply in_map; exact Hs]. apply Hval. auto.
  - intros v. apply filter_sorted. apply has_pauling_ties.
  - rewrite map_map. apply mapM_ok_map. intros s Hs.
    apply en_sorter_pauling. apply Hval. exact Hs.
  - intros Hu. eapply Forall2_impl; [|exact HF2]. simpl.
    intros s en. apply pauling_row. exact Hu.
Qed.

Lemma excerpt_capitalized : table_capitalized periodic_table_excerpt.
Proof. repeat (apply Forall_cons; [reflexivity|]). apply Forall_nil. Qed.

Lemma excerpt_z_unique : table_z_unique periodic_table_excerpt.
Proof.
  unfold table_z_unique. simpl.
  repeat (apply NoDup_cons; [simpl; intuition discriminate|]). apply NoDup_nil.
Qed.

Lemma excerpt_symbol_unique : table_symbol_unique periodic_table_excerpt.
Proof.
  unfold table_symbol_unique. simpl.
  repeat (apply NoDup_cons; [simpl; intuition discriminate|]). apply NoDup_nil.
Qed.

Lemma sort_iupac_without_carbon_witness :
  let self := {| _z_to_count := [(10, 2); (17, 1); (2, 3); (11, 1); (8, 1)];
                 _symbol_to_count :=
                   [("Ne", 2); ("Cl", 1); ("He", 3); ("Na", 1); ("O", 1)];
                 _charge := -1 |} in
  __init__ periodic_table_excerpt
    [(KStr "Ne", 2); (KStr "cl", 1); (KInt 2, 3); (KStr " na ", 1); (KInt 8, 1)] (-1)
    = Ok self
  /\ exists f ens,
    sort periodic_table_excerpt self "iupac" = Ok f
    /\ Forall2 (fun s en => pauling periodic_table_excerpt s = Some en)
         (dict_keys (_symbol_to_count f)) ens
    /\ StronglySorted pauling_le ens
    /\ (exists defined undefined,
          dict_keys (_symbol_to_count f) = (defined ++ undefined)%list
          /\ Forall (fun s => exists q,
                       pauling periodic_table_excerpt s = Some (Some q)) defined
          /\ Forall (fun s => pauling periodic_table_excerpt s = Some None)
               undefined)
    /\ (forall v, filter (has_pauling periodic_table_excerpt v)
                    (dict_keys (_symbol_to_count f))
                  = filter (has_pauling periodic_table_excerpt v)
                      (dict_keys (_symbol_to_count self)))
    /\ mapM (en_sorter periodic_table_excerpt) (dict_keys (_symbol_to_count f))
       = Ok (map en_key_of ens)
    /\ (table_z_unique periodic_table_excerpt ->
        Forall2 (fun s en => exists r, In r periodic_table_excerpt
                                       /\ col_symbol r = s
                                       /\ col_en_pauling r = en)
          (dict_keys (_symbol_to_count f)) ens)
    /\ Permutation (_symbol_to_count f) (_symbol_to_count self)
    /\ _charge f = _charge self.
Proof.
  intros self. split; [reflexivity|].
  apply (sort_iupac_without_carbon periodic_table_excerpt
           [(KStr "Ne", 2); (KStr "cl", 1); (KInt 2, 3); (KStr " na ", 1); (KInt 8, 1)]
           (-1) self).
  - exact excerpt_capitalized.
  - reflexivity.
  - reflexivity.
Defined.

(** The electronegativities of the sorted formula, read from the table. *)
Example sort_iupac_without_carbon_values :
  map (pauling periodic_table_excerpt) ["Na"; "Cl"; "O"; "Ne"; "He"]
  = [Some (Some 0.93%Q); Some (Some 3.16%Q); Some (Some 3.44%Q);
     Some None; Some None].
Proof. reflexivity. Qed.

Example sort_iupac_without_carbon_ex :
  (f <- from_counts periodic_table_excerpt
          [(KStr "Ne", 2); (KStr "cl", 1); (KInt 2, 3); (KStr " na ", 1);
           (KInt 8, 1)] (-1) (Some "iupac") ;;
   Ok (dict_keys (_symbol_to_count f)))
  = Ok ["Na"; "Cl"; "O"; "Ne"; "He"].
Proof. reflexivity. Qed.

(** ** The two dictionaries of a formula *)

Section Views.
Variable T : list element_row.
Hypothesis z_unique : table_z_unique T.
Hypothesis symbol_unique : table_symbol_unique T.

Lemma known_number s z : getitem_str (_SYMBOL_TO_Z T) s = Ok z -> known T s.
Proof.
  unfold known, number_of, getitem_str.
  destruct (dict_get String.eqb (_SYMBOL_TO_Z T) s); [reflexivity | discriminate].
Qed.

Lemma number_of_inj s1 s2 :
  known T s1 -> known T s2 -> number_of T s1 = number_of T s2 -> s1 = s2.
Proof.
  intros H1 H2 Heq.
  apply (Z_TO_SYMBOL_of_SYMBOL_TO_Z T _ _ z_unique) in H1, H2.
  rewrite Heq in H1. congruence.
Qed.

Lemma by_number_set (d : dict string Z) s c :
  Forall (known T) (dict_keys d) -> known T s ->
  by_number T (dict_set String.eqb d s c)
  = dict_set Z.eqb (by_number T d) (number_of T s) c.
Proof.
  intros Hd Hs. induction d as [|[k v] d IH]; simpl; [reflexivity|].
  inversion Hd as [|? ? Hk Hd']; subst. simpl in Hk.
  destruct (String.eqb_spec k s) as [->|Hne].
  - rewrite Z.eqb_refl. reflexivity.
  - destruct (Z.eqb_spec (number_of T k) (number_of T s)) as [Heq|_].
    + exfalso. apply Hne. apply number_of_inj; assumption.
    + simpl. rewrite IH by assumption. reflexivity.
Qed.

Lemma by_number_update (items d : dict string Z) :
  Forall (known T) (dict_keys d) -> Forall (known T) (map fst items) ->
  by_number T (dict_update String.eqb d items)
  = dict_update Z.eqb (by_number T d) (by_number T items).
Proof.
  revert d; induction items as [|[s c] items IH]; intros d Hd Hi; [reflexivity|].
  inversion Hi as [|? ? Hs Hi']; subst. simpl in Hs.
  rewrite dict_update_cons. simpl by_number. rewrite dict_update_cons.
  rewrite IH; [|apply Forall_forall|assumption].
  - rewrite by_number_set by assumption. reflexivity.
  - intros k Hk. apply (dict_keys_set_in String.eqb String.eqb_eq) in Hk.
    rewrite Forall_forall in Hd. destruct Hk as [->|Hk]; auto.
Qed.

Lemma resolve_known k z s : resolve T k = Ok (z, s) -> known T s /\ number_of T s = z.
Proof.
  intros H.
  assert (Hs : getitem_str (_SYMBOL_TO_Z T) s = Ok z).
  { destruct k as [z0|s0|]; simpl in H; [| |discriminate].
    - apply bind_ok_inv in H as (s' & Hs & H). injection H as <- <-.
      apply SYMBOL_TO_Z_of_Z_TO_SYMBOL; assumption.
    - apply bind_ok_inv in H as (z' & Hz & H). injection H as <- <-. exact Hz. }
  pose proof (known_number s z Hs) as Hk. split; [exact Hk|].
  unfold known in Hk. congruence.
Qed.

(** In a constructed formula the dictionary by atomic number lists, in
    the order of the dictionary by symbol, the number of each symbol
    with the count of the symbol. *)
Lemma init_views_in_step atom_count charge f :
  __init__ T atom_count charge = Ok f ->
  _z_to_count f = by_number T (_symbol_to_count f).
Proof.
  rewrite init_eq. intros H. apply bind_ok_inv in H as (rs & Hrs & H).
  injection H as <-. simpl.
  assert (Hall : Forall (fun r => known T (snd (fst r))
                                  /\ number_of T (snd (fst r)) = fst (fst r)) rs).
  { apply mapM_ok_inv in Hrs. clear -Hrs z_unique symbol_unique.
    induction Hrs as [|kv r ? ? Hr _ IH]; constructor; [|exact IH].
    unfold resolve_item in Hr. apply bind_ok_inv in Hr as ([z s] & Hres & Hr).
    injection Hr as <-. simpl. eapply resolve_known; eauto. }
  rewrite !dict_of_items_update, by_number_update.
  - f_equal. unfold by_number. rewrite map_map. apply map_ext_in.
    intros [[z s] c] Hin. rewrite Forall_forall in Hall.
    destruct (Hall _ Hin) as [_ Hz]. simpl in *. rewrite Hz. reflexivity.
  - constructor.
  - rewrite map_map. apply Forall_map. eapply Forall_impl; [|exact Hall].
    simpl. tauto.
Qed.
End Views.

(** ** What sorting keeps *)

(** C5.  A call of [sort] with ["iupac"] that succeeds returns a new
    object, one the heap did not hold, whose items are the items of the
    receiver in another order and whose charge is the receiver's; the
    receiver and every other object of the heap are as they were. *)
Theorem sort_iupac_fresh_same_items T h self atom_count charge obj p h' :
  table_capitalized T ->
  deref h self = Some obj ->
  __init__ T atom_count charge = Ok obj ->
  call_sort T h self "iupac" = Some (Ok p, h') ->
  exists f,
    sort T obj "iupac" = Ok f
    /\ deref h p = None
    /\ deref h' p = Some f
    /\ Permutation (_symbol_to_count f) (_symbol_to_count obj)
    /\ _charge f = _charge obj
    /\ deref h' self = Some obj
    /\ (forall q o, deref h q = Some o -> deref h' q = Some o)
    /\ (table_z_unique T -> table_symbol_unique T ->
        Permutation (_z_to_count f) (_z_to_count obj)).
Proof.
  intros Hcap Hself Hinit Hcall.
  destruct (init_symbols_ok T _ _ _ Hcap Hinit) as [Hnd Hok].
  unfold call_sort in Hcall. rewrite Hself in Hcall. injection Hcall as Hcall.
  apply returning_ok_inv in Hcall as (f & Hsort & Hfresh & Hp & Hold).
  exists f. split; [exact Hsort|].
  destruct (sort_iupac_ok_inv T obj f Hnd Hok Hsort)
    as (elements & Hse & Hperm & Hsym & Hch).
  assert (Hitems : Permutation (_symbol_to_count f) (_symbol_to_count obj)).
  { rewrite Hsym. apply reorder_perm; assumption. }
  repeat split; auto.
  intros Hz Hs. change (_sort_iupac T obj = Ok f) in Hsort.
  rewrite (sort_iupac_eq T obj elements Hse Hperm Hnd) in Hsort.
  rewrite (init_views_in_step T Hz Hs _ _ _ Hsort).
  rewrite (init_views_in_step T Hz Hs _ _ _ Hinit).
  apply Permutation_map. exact Hitems.
Qed.

Lemma sort_iupac_fresh_same_items_witness :
  let obj := {| _z_to_count := [(8, 1); (1, 2)];
                _symbol_to_count := [("O", 1); ("H", 2)]; _charge := 0 |} in
  let g := {| _z_to_count := [(1, 2); (8, 1)];
              _symbol_to_count := [("H", 2); ("O", 1)]; _charge := 0 |} in
  call_sort periodic_table_excerpt [obj] 0%nat "iupac" = Some (Ok 1%nat, [obj; g])
  /\ exists f,
    sort periodic_table_excerpt obj "iupac" = Ok f
    /\ deref [obj] 1%nat = None
    /\ deref [obj; g] 1%nat = Some f
    /\ Permutation (_symbol_to_count f) (_symbol_to_count obj)
    /\ _charge f = _charge obj
    /\ deref [obj; g] 0%nat = Some obj
    /\ (forall q o, deref [obj] q = Some o -> deref [obj; g] q = Some o)
    /\ (table_z_unique periodic_table_excerpt ->
        table_symbol_unique periodic_table_excerpt ->
        Permutation (_z_to_count f) (_z_to_count obj)).
Proof.
  intros obj g. split; [reflexivity|].
  apply (sort_iupac_fresh_same_items periodic_table_excerpt [obj] 0%nat
           [(KInt 8, 1); (KStr "h", 2)] 0 obj 1%nat [obj; g]).
  - exact excerpt_capitalized.
  - reflexivity.
  - reflexivity.
  - reflexivity.
Defined.

(** C6.  Sorting a sorted formula again with ["iupac"] succeeds and gives
    the same formula, so the same order of the symbols. *)
Theorem sort_iupac_idempotent T atom_count charge self f1 :
  table_capitalized T ->
  __init__ T atom_count charge = Ok self ->
  sort T self "iupac" = Ok f1 ->
  exists f2,
    sort T f1 "iupac" = Ok f2
    /\ dict_keys (_symbol_to_count f2) = dict_keys (_symbol_to_count f1)
    /\ f2 = f1.
Proof.
  intros Hcap Hinit Hsort. change (_sort_iupac T self = Ok f1) in Hsort.
  destruct (init_symbols_ok T _ _ _ Hcap Hinit) as [Hnd Hok].
  destruct (sort_iupac_ok_inv T self f1 Hnd Hok Hsort)
    as (elements & Hse & Hperm & Hsym & Hch).
  pose proof Hsort as Hinit1.
  rewrite (sort_iupac_eq T self elements Hse Hperm Hnd) in Hinit1.
  destruct (init_symbols_ok T _ _ _ Hcap Hinit1) as [Hnd1 Hok1].
  assert (Hkeys1 : dict_keys (_symbol_to_count f1) = elements).
  { rewrite Hsym. apply reorder_keys. }
  assert (Hse1 : sorted_elements T (_symbol_to_count f1)
                 = Ok (dict_keys (_symbol_to_count f1))).
  { destruct (dict_contains String.eqb (_symbol_to_count self) "C") eqn:HC.
    - rewrite sorted_elements_carbon in Hse by assumption. injection Hse as Hse.
      rewrite sorted_elements_carbon.
      + rewrite Hkeys1. unfold carbon_order. rewrite Hkeys1. f_equal.
        rewrite <- Hse. unfold carbon_order. simpl filter.
        rewrite filter_all_true.
        * rewrite sorted_idem by apply string_ltb_asym. reflexivity.
        * apply Forall_forall. intros x Hx. apply sorted_in in Hx.
          apply filter_In in Hx. tauto.
      + apply (dict_contains_in String.eqb String.eqb_eq).
        rewrite Hkeys1, <- Hse. left. reflexivity.
    - rewrite sorted_elements_en in Hse by assumption. injection Hse as Hse.
      rewrite sorted_elements_en; [| |exact Hok1].
      + rewrite Hkeys1, <- Hse.
        rewrite sorted_idem by apply en_ltb_asym. reflexivity.
      + destruct (dict_contains String.eqb (_symbol_to_count f1) "C") eqn:HC1;
          [|reflexivity].
        apply (dict_contains_in String.eqb String.eqb_eq) in HC1.
        rewrite Hkeys1 in HC1. apply (Permutation_in _ Hperm) in HC1.
        apply (dict_contains_in String.eqb String.eqb_eq) in HC1. congruence. }
  exists f1. split; [|auto].
  change (_sort_iupac T f1 = Ok f1).
  rewrite (sort_iupac_eq T f1 _ Hse1 (Permutation_refl _) Hnd1).
  rewrite reorder_self by assumption. rewrite Hsym, Hch. exact Hinit1.
Qed.

Lemma sort_iupac_idempotent_witness :
  let f1 := {| _z_to_count := [(11, 1); (17, 1); (8, 4)];
               _symbol_to_count := [("Na", 1); ("Cl", 1); ("O", 4)];
               _charge := 0 |} in
  exists f2,
    sort periodic_table_excerpt f1 "iupac" = Ok f2
    /\ dict_keys (_symbol_to_count f2) = dict_keys (_symbol_to_count f1)
    /\ f2 = f1.
Proof.
  intros f1.
  apply (sort_iupac_idempotent periodic_table_excerpt
           [(KInt 8, 4); (KStr "NA", 1); (KInt 17, 1)] 0
           {| _z_to_count := [(8, 4); (11, 1); (17, 1)];
              _symbol_to_count := [("O", 4); ("Na", 1); ("Cl", 1)];
              _charge := 0 |} f1).
  - exact excerpt_capitalized.
  - reflexivity.
  - reflexivity.
Defined.

(** ** Keys by symbol and keys by number *)

(** C7.  Entries [(symbol, z, count)] in which [z] is the number the table
    gives for the symbol: constructing from the symbols and constructing
    from the numbers, in the same order with the same counts and the same
    charge, both succeed and give formulas with the same rendering (they
    are the same formula), when no atomic number has two rows. *)
Theorem symbol_keys_number_keys_same_latex T
    (entries : list (string * Z * Z)) charge :
  table_z_unique T ->
  Forall (fun e => getitem_str (_SYMBOL_TO_Z T) (capitalize (strip (fst (fst e))))
                   = Ok (snd (fst e))) entries ->
  exists f1 f2,
    __init__ T (map (fun e => (KStr (fst (fst e)), snd e)) entries) charge = Ok f1
    /\ __init__ T (map (fun e => (KInt (snd (fst e)), snd e)) entries) charge = Ok f2
    /\ latex f1 = latex f2
    /\ f1 = f2.
Proof.
  intros Hu Hall.
  set (rs := map (fun e : string * Z * Z =>
                    (snd (fst e), capitalize (strip (fst (fst e))), snd e)) entries).
  assert (H1 : mapM (resolve_item T)
                 (map (fun e => (KStr (fst (fst e)), snd e)) entries) = Ok rs).
  { unfold rs. induction Hall as [|e l He _ IH]; simpl; [reflexivity|].
    unfold resolve_item at 1. simpl. rewrite He. simpl. rewrite IH. reflexivity. }
  assert (H2 : mapM (resolve_item T)
                 (map (fun e => (KInt (snd (fst e)), snd e)) entries) = Ok rs).
  { clear H1. unfold rs. induction Hall as [|e l He _ IH]; simpl; [reflexivity|].
    unfold resolve_item at 1. simpl.
    rewrite (Z_TO_SYMBOL_of_SYMBOL_TO_Z T _ _ Hu He). simpl. rewrite IH.
    reflexivity. }
  eexists. eexists. rewrite !init_eq, H1, H2. simpl. auto.
Qed.

Lemma symbol_keys_number_keys_same_latex_witness :
  exists f1 f2,
    __init__ periodic_table_excerpt
      [(KStr " na", 1); (KStr "CL", 1); (KStr "O", 3)] (-1) = Ok f1
    /\ __init__ periodic_table_excerpt
         [(KInt 11, 1); (KInt 17, 1); (KInt 8, 3)] (-1) = Ok f2
    /\ latex f1 = latex f2
    /\ f1 = f2.
Proof.
  apply (symbol_keys_number_keys_same_latex periodic_table_excerpt
           [(" na", 11, 1); ("CL", 17, 1); ("O", 8, 3)] (-1)).
  - exact excerpt_z_unique.
  - repeat (apply Forall_cons; [reflexivity|]). apply Forall_nil.
Defined.

(** ** Keys the table does not know *)

Lemma unresolved_raise T k :
  unresolved T k -> exists e, resolve T k = Raise e /\ is_KeyError e = true.
Proof.
  destruct k as [z|s|]; simpl; [| |tauto]; intros H.
  - unfold getitem_int. rewrite H. simpl. eauto.
  - unfold getitem_str. rewrite H. simpl. eauto.
Qed.

Lemma resolve_raise T k e :
  resolve T k = Raise e -> k <> KOther -> is_KeyError e = true.
Proof.
  destruct k as [z|s|]; simpl; [| |congruence]; intros H _.
  - unfold getitem_int in H. destruct (dict_get _ _ z); simpl in H; [discriminate|].
    injection H as <-. reflexivity.
  - unfold getitem_str in H. destruct (dict_get _ _ _); simpl in H; [discriminate|].
    injection H as <-. reflexivity.
Qed.

(** C8, the claim as it stands fails: a key of invalid type that comes
    first makes the construction raise [TypeError], whatever follows. *)
Lemma unknown_symbol_after_invalid_key :
  unresolved periodic_table_excerpt (KStr "Xx")
  /\ exists e,
       __init__ periodic_table_excerpt [(KOther, 1); (KStr "Xx", 1)] 0 = Raise e
       /\ is_KeyError e = false.
Proof. split; [reflexivity|]. exists TypeError. split; reflexivity. Qed.

(** C8, amended.  An input with a key the table does not know makes the
    construction raise, so that no formula is made; the exception is a
    [KeyError] (the spec's UnknownElement) when no key of invalid type
    comes before that key. *)
Theorem init_unresolved_key T pre k count post charge :
  unresolved T k ->
  exists e,
    __init__ T (pre ++ (k, count) :: post) charge = Raise e
    /\ (Forall (fun kv => fst kv <> KOther) pre -> is_KeyError e = true).
Proof.
  intros Hk. destruct (unresolved_raise T k Hk) as (e0 & He0 & Hkey0).
  assert (H : exists e,
    mapM (resolve_item T) (pre ++ (k, count) :: post) = Raise e
    /\ (Forall (fun kv => fst kv <> KOther) pre -> is_KeyError e = true)).
  { induction pre as [|[k' c'] pre (e & IH & IHkey)]; simpl.
    - exists e0. unfold resolve_item at 1. simpl. rewrite He0. simpl. auto.
    - unfold resolve_item at 1. simpl.
      destruct (resolve T k') as [[z s]|e'] eqn:E; simpl.
      + exists e. rewrite IH. simpl. split; [reflexivity|].
        intros Hall. inversion Hall; auto.
      + exists e'. split; [reflexivity|].
        intros Hall. inversion Hall as [|? ? Hne _]. subst.
        eapply resolve_raise; eauto. }
  destruct H as (e & He & Hkey). exists e. rewrite init_eq, He. auto.
Qed.

Lemma init_unresolved_key_witness :
  exists e,
    __init__ periodic_table_excerpt
      ([(KStr "H", 2)] ++ (KInt 9999, 1) :: [(KOther, 1)]) 0 = Raise e
    /\ (Forall (fun kv : key * Z => fst kv <> KOther) [(KStr "H", 2)] ->
        is_KeyError e = true).
Proof.
  apply (init_unresolved_key periodic_table_excerpt [(KStr "H", 2)] (KInt 9999) 1
           [(KOther, 1)] 0).
  reflexivity.
Defined.

Example init_unknown_number :
  __init__ periodic_table_excerpt [(KStr "H", 2); (KInt 9999, 1)] 0
  = Raise (KeyError_int 9999).
Proof. reflexivity. Qed.

Example init_unknown_symbol :
  __init__ periodic_table_excerpt [(KStr "H", 2); (KStr "Xx", 1)] 0
  = Raise (KeyError_str "Xx").
Proof. reflexivity. Qed.

(** ** Two keys for one element *)

(** C10.  Two entries of the input whose keys stand for the same element
    [(z, s)], the first of them the first entry for the symbol and the
    second the last entry for the element, and all other keys known to
    the table: the construction succeeds, both dictionaries hold the count
    of the later entry for the element, and the symbol stands once among
    the keys, where the first entry put it: right after the symbols of the
    entries before it. *)
Theorem init_same_element T l1 k1 c1 l2 k2 c2 l3 charge z s rs1 rs2 rs3 :
  mapM (resolve_item T) l1 = Ok rs1 ->
  mapM (resolve_item T) l2 = Ok rs2 ->
  mapM (resolve_item T) l3 = Ok rs3 ->
  resolve T k1 = Ok (z, s) ->
  resolve T k2 = Ok (z, s) ->
  ~ In s (map fst (map symbol_item rs1)) ->
  ~ In s (map fst (map symbol_item rs3)) ->
  ~ In z (map fst (map z_item rs3)) ->
  exists f f1 t,
    __init__ T (l1 ++ (k1, c1) :: l2 ++ (k2, c2) :: l3) charge = Ok f
    /\ dict_get Z.eqb (_z_to_count f) z = Some c2
    /\ dict_get String.eqb (_symbol_to_count f) s = Some c2
    /\ __init__ T l1 charge = Ok f1
    /\ dict_keys (_symbol_to_count f)
       = (dict_keys (_symbol_to_count f1) ++ s :: t)%list
    /\ ~ In s (dict_keys (_symbol_to_count f1))
    /\ ~ In s t.
Proof.
  intros H1 H2 H3 Hk1 Hk2 Hfirst Hlast Hlastz.
  set (rs := (rs1 ++ (z, s, c1) :: rs2 ++ (z, s, c2) :: rs3)%list).
  assert (Hrs : mapM (resolve_item T) (l1 ++ (k1, c1) :: l2 ++ (k2, c2) :: l3) = Ok rs).
  { rewrite mapM_app, H1. simpl. unfold resolve_item at 1. simpl. rewrite Hk1. simpl.
    rewrite mapM_app, H2. simpl. unfold resolve_item at 1. simpl. rewrite Hk2. simpl.
    rewrite H3. reflexivity. }
  rewrite !init_eq, Hrs, H1. simpl.
  set (D1 := dict_of_items String.eqb (map symbol_item rs1)).
  assert (HD1 : ~ In s (dict_keys D1)).
  { unfold D1. rewrite (dict_of_items_keys_in String.eqb String.eqb_eq). exact Hfirst. }
  assert (Hsym : dict_of_items String.eqb (map symbol_item rs)
    = dict_update String.eqb
        (dict_set String.eqb
           (dict_update String.eqb (dict_set String.eqb D1 s c1) (map symbol_item rs2))
           s c2)
        (map symbol_item rs3)).
  { unfold rs, D1. rewrite !dict_of_items_update.
    rewrite map_app, dict_update_app. simpl map. rewrite dict_update_cons_item.
    rewrite map_app, dict_update_app. simpl map. rewrite dict_update_cons_item.
    reflexivity. }
  assert (Hz : dict_of_items Z.eqb (map z_item rs)
    = dict_update Z.eqb
        (dict_set Z.eqb
           (dict_update Z.eqb
              (dict_set Z.eqb (dict_of_items Z.eqb (map z_item rs1)) z c1)
              (map z_item rs2))
           z c2)
        (map z_item rs3)).
  { unfold rs. rewrite !dict_of_items_update.
    rewrite map_app, dict_update_app. simpl map. rewrite dict_update_cons_item.
    rewrite map_app, dict_update_app. simpl map. rewrite dict_update_cons_item.
    reflexivity. }
  assert (Hkeys : exists t,
    dict_keys (dict_of_items String.eqb (map symbol_item rs))
    = (dict_keys D1 ++ s :: t)%list).
  { rewrite Hsym.
    destruct (dict_update_keys_prefix String.eqb String.eqb_eq (map symbol_item rs3)
                (dict_set String.eqb
                   (dict_update String.eqb (dict_set String.eqb D1 s c1)
                      (map symbol_item rs2)) s c2)) as (t3 & ->).
    destruct (dict_keys_set_prefix String.eqb String.eqb_eq
                (dict_update String.eqb (dict_set String.eqb D1 s c1)
                   (map symbol_item rs2)) s c2) as (t2 & ->).
    destruct (dict_update_keys_prefix String.eqb String.eqb_eq (map symbol_item rs2)
                (dict_set String.eqb D1 s c1)) as (t1 & ->).
    rewrite (dict_keys_set_new String.eqb String.eqb_eq) by exact HD1.
    exists (t1 ++ t2 ++ t3)%list. rewrite <- !app_assoc. reflexivity. }
  destruct Hkeys as (t & Hkeys).
  eexists. exists {| _z_to_count := dict_of_items Z.eqb (map z_item rs1);
                     _symbol_to_count := D1; _charge := charge |}, t.
  split; [reflexivity|]. cbn [_z_to_count _symbol_to_count].
  split; [|split; [|split; [reflexivity|split; [exact Hkeys|split; [exact HD1|]]]]].
  - rewrite Hz, (dict_update_get_other Z.eqb Z.eqb_eq) by exact Hlastz.
    apply (dict_get_set_same Z.eqb Z.eqb_eq).
  - rewrite Hsym, (dict_update_get_other String.eqb String.eqb_eq) by exact Hlast.
    apply (dict_get_set_same String.eqb String.eqb_eq).
  - pose proof (dict_of_items_keys_NoDup String.eqb String.eqb_eq (map symbol_item rs))
      as Hnd.
    rewrite Hkeys in Hnd. apply NoDup_remove_2 in Hnd.
    rewrite in_app_iff in Hnd. tauto.
Qed.

Lemma init_same_element_witness :
  exists f f1 t,
    __init__ periodic_table_excerpt
      ([(KStr "O", 1)] ++ (KInt 1, 2) :: [(KStr "N", 1)] ++ (KStr " h", 5)
         :: [(KInt 6, 1)]) 0 = Ok f
    /\ dict_get Z.eqb (_z_to_count f) 1 = Some 5
    /\ dict_get String.eqb (_symbol_to_count f) "H" = Some 5
    /\ __init__ periodic_table_excerpt [(KStr "O", 1)] 0 = Ok f1
    /\ dict_keys (_symbol_to_count f)
       = (dict_keys (_symbol_to_count f1) ++ "H" :: t)%list
    /\ ~ In "H" (dict_keys (_symbol_to_count f1))
    /\ ~ In "H" t.
Proof.
  apply (init_same_element periodic_table_excerpt
           [(KStr "O", 1)] (KInt 1) 2 [(KStr "N", 1)] (KStr " h") 5 [(KInt 6, 1)] 0
           1 "H" [(8, "O", 1)] [(7, "N", 1)] [(6, "C", 1)]);
    try reflexivity; simpl; intuition discriminate.
Defined.

Example init_same_element_ex :
  __init__ periodic_table_excerpt
    [(KStr "O", 1); (KInt 1, 2); (KStr "N", 1); (KStr " h", 5); (KInt 6, 1)] 0
  = Ok {| _z_to_count := [(8, 1); (1, 5); (7, 1); (6, 1)];
          _symbol_to_count := [("O", 1); ("H", 5); ("N", 1); ("C", 1)];
          _charge := 0 |}.
Proof. reflexivity. Qed.

(** * Further properties *)

(** ** The module-level dictionaries *)

(** X1.  In a table where no atomic number and no symbol has two rows,
    the two dictionaries are inverse to each other: a symbol has the
    number [z] exactly when [z] has that symbol. *)
Theorem SYMBOL_TO_Z_inverse_of_Z_TO_SYMBOL T s z :
  table_z_unique T -> table_symbol_unique T ->
  getitem_str (_SYMBOL_TO_Z T) s = Ok z <-> getitem_int (_Z_TO_SYMBOL T) z = Ok s.
Proof.
  intros Hz Hs. split.
  - apply Z_TO_SYMBOL_of_SYMBOL_TO_Z. exact Hz.
  - apply SYMBOL_TO_Z_of_Z_TO_SYMBOL. exact Hs.
Qed.

Lemma SYMBOL_TO_Z_inverse_of_Z_TO_SYMBOL_witness :
  getitem_str (_SYMBOL_TO_Z periodic_table_excerpt) "Na" = Ok 11
  <-> getitem_int (_Z_TO_SYMBOL periodic_table_excerpt) 11 = Ok "Na".
Proof.
  apply (SYMBOL_TO_Z_inverse_of_Z_TO_SYMBOL periodic_table_excerpt "Na" 11).
  - exact excerpt_z_unique.
  - exact excerpt_symbol_unique.
Defined.

(** ** More on construction *)

Lemma resolve_normalize_key T k : resolve T (normalize_key k) = resolve T k.
Proof.
  destruct k as [z|s|]; simpl; [reflexivity| |reflexivity].
  rewrite normalize_idem. reflexivity.
Qed.

(** X2.  On keys whose strings are ASCII, construction does not tell a
    symbol from the same symbol in another case or with white space around
    it: replacing every string key by its normal form gives the same
    formula, or the same exception. *)
Theorem init_normalized_keys T atom_count charge :
  Forall (fun kv => ascii_key (fst kv) = true) atom_count ->
  __init__ T (map (fun kv => (normalize_key (fst kv), snd kv)) atom_count) charge
  = __init__ T atom_count charge.
Proof.
  intros _. rewrite !init_eq. f_equal.
  induction atom_count as [|[k c] l IH]; simpl; [reflexivity|].
  unfold resolve_item at 1 3. simpl. rewrite resolve_normalize_key, IH. reflexivity.
Qed.

Lemma init_normalized_keys_witness :
  __init__ periodic_table_excerpt
    (map (fun kv => (normalize_key (fst kv), snd kv))
         [(KStr " na ", 1); (KInt 8, 2); (KStr "cL", 1)]) 0
  = __init__ periodic_table_excerpt
      [(KStr " na ", 1); (KInt 8, 2); (KStr "cL", 1)] 0.
Proof.
  apply (init_normalized_keys periodic_table_excerpt
           [(KStr " na ", 1); (KInt 8, 2); (KStr "cL", 1)] 0).
  repeat (apply Forall_cons; [reflexivity|]). apply Forall_nil.
Defined.

Lemma resolve_item_in T l rs r :
  mapM (resolve_item T) l = Ok rs -> In r rs ->
  exists k, In (k, snd r) l /\ resolve T k = Ok (fst r).
Proof.
  intros H. apply mapM_ok_inv in H.
  induction H as [|[k c] r0 l rs Hr _ IH]; [intros []|].
  intros [<-|Hin].
  - unfold resolve_item in Hr. simpl in Hr.
    apply bind_ok_inv in Hr as ([z s] & Hres & Hr). injection Hr as <-.
    exists k. simpl. auto.
  - destruct (IH Hin) as (k' & Hk' & Hres). exists k'. simpl. auto.
Qed.

Lemma in_resolve_item T l rs k c e :
  mapM (resolve_item T) l = Ok rs -> In (k, c) l -> resolve T k = Ok e ->
  In (e, c) rs.
Proof.
  intros H. apply mapM_ok_inv in H.
  induction H as [|[k0 c0] r0 l rs Hr _ IH]; [intros []|].
  intros [Heq|Hin] Hres.
  - injection Heq as -> ->. unfold resolve_item in Hr. simpl in Hr.
    rewrite Hres in Hr. simpl in Hr. destruct e. injection Hr as <-. left. reflexivity.
  - right. auto.
Qed.

Lemma init_keys_resolved T atom_count charge f :
  __init__ T atom_count charge = Ok f ->
  (forall s, In s (dict_keys (_symbol_to_count f))
             <-> exists k c z, In (k, c) atom_count /\ resolve T k = Ok (z, s))
  /\ (forall z, In z (dict_keys (_z_to_count f))
                <-> exists k c s, In (k, c) atom_count /\ resolve T k = Ok (z, s)).
Proof.
  rewrite init_eq. intros H. apply bind_ok_inv in H as (rs & Hrs & H).
  injection H as <-. simpl. split.
  - intros s. rewrite (dict_of_items_keys_in String.eqb String.eqb_eq), map_map.
    rewrite in_map_iff. split.
    + intros ([[z s'] c] & Heq & Hin). simpl in Heq. subst s'.
      destruct (resolve_item_in T _ _ _ Hrs Hin) as (k & Hk & Hres).
      exists k, c, z. auto.
    + intros (k & c & z & Hin & Hres).
      exists (z, s, c). split; [reflexivity|].
      eapply in_resolve_item; eauto.
  - intros z. rewrite (dict_of_items_keys_in Z.eqb Z.eqb_eq), map_map.
    rewrite in_map_iff. split.
    + intros ([[z' s] c] & Heq & Hin). simpl in Heq. subst z'.
      destruct (resolve_item_in T _ _ _ Hrs Hin) as (k & Hk & Hres).
      exists k, c, s. auto.
    + intros (k & c & s & Hin & Hres).
      exists (z, s, c). split; [reflexivity|].
      eapply in_resolve_item; eauto.
Qed.

(** X3.  The symbols of a constructed formula are the symbols the keys of
    the input stand for, no more and no fewer, and likewise its atomic
    numbers. *)
Theorem init_elements T atom_count charge f :
  __init__ T atom_count charge = Ok f ->
  (forall s, In s (dict_keys (_symbol_to_count f))
             <-> exists k c z, In (k, c) atom_count /\ resolve T k = Ok (z, s))
  /\ (forall z, In z (dict_keys (_z_to_count f))
                <-> exists k c s, In (k, c) atom_count /\ resolve T k = Ok (z, s)).
Proof. apply init_keys_resolved. Qed.

Lemma init_elements_witness :
  let f := {| _z_to_count := [(8, 1); (1, 5)];
              _symbol_to_count := [("O", 1); ("H", 5)]; _charge := 0 |} in
  (forall s, In s (dict_keys (_symbol_to_count f))
             <-> exists k c z,
                   In (k, c) [(KInt 8, 1); (KStr "h", 2); (KInt 1, 5)]
                   /\ resolve periodic_table_excerpt k = Ok (z, s))
  /\ (forall z, In z (dict_keys (_z_to_count f))
                <-> exists k c s,
                      In (k, c) [(KInt 8, 1); (KStr "h", 2); (KInt 1, 5)]
                      /\ resolve periodic_table_excerpt k = Ok (z, s)).
Proof.
  intros f.
  apply (init_elements periodic_table_excerpt
           [(KInt 8, 1); (KStr "h", 2); (KInt 1, 5)] 0 f).
  reflexivity.
Defined.

Lemma row_Z_TO_SYMBOL T r :
  In r T -> exists s, getitem_int (_Z_TO_SYMBOL T) (col_z r) = Ok s.
Proof.
  intros Hin. unfold getitem_int, _Z_TO_SYMBOL.
  destruct (dict_get _ _ (col_z r)) as [s|] eqn:E; [eauto|].
  apply (dict_get_none Z.eqb Z.eqb_eq) in E. exfalso; apply E.
  apply (dict_of_items_keys_in Z.eqb Z.eqb_eq).
  rewrite map_map. simpl. apply in_map. exact Hin.
Qed.

Lemma en_sorter_total T s z :
  getitem_str (_SYMBOL_TO_Z T) s = Ok z -> exists k, en_sorter T s = Ok k.
Proof.
  intros Hz. unfold en_sorter. rewrite Hz. simpl.
  apply SYMBOL_TO_Z_row in Hz as (r & Hin & <- & _).
  destruct (row_Z_TO_EN T r Hin) as (en & ->). simpl. eauto.
Qed.

Lemma resolve_row T k z s :
  resolve T k = Ok (z, s) ->
  (exists r, In r T /\ col_z r = z) /\ (exists r, In r T /\ col_symbol r = s).
Proof.
  destruct k as [z0|s0|]; simpl; [| |discriminate]; intros H.
  - apply bind_ok_inv in H as (s' & Hs & H). injection H as <- <-.
    apply Z_TO_SYMBOL_row in Hs as (r & Hin & Hz & Hsym). split; eauto.
  - apply bind_ok_inv in H as (z' & Hz & H). injection H as <- <-.
    apply SYMBOL_TO_Z_row in Hz as (r & Hin & Hz & Hsym). split; eauto.
Qed.

(** X4.  Whatever the table, it knows every element of a constructed
    formula under both names: each symbol of the formula has a number and
    [en_sorter] returns a key for it, each atomic number of the formula has
    a symbol and an entry for its electronegativity.  No later lookup for
    an element of the formula raises [KeyError]. *)
Theorem init_elements_known T atom_count charge f :
  __init__ T atom_count charge = Ok f ->
  (forall s, In s (dict_keys (_symbol_to_count f)) ->
     (exists z, getitem_str (_SYMBOL_TO_Z T) s = Ok z)
     /\ (exists k, en_sorter T s = Ok k))
  /\ (forall z, In z (dict_keys (_z_to_count f)) ->
        (exists s, getitem_int (_Z_TO_SYMBOL T) z = Ok s)
        /\ (exists en, getitem_int (_Z_TO_EN T) z = Ok en)).
Proof.
  intros Hinit. destruct (init_keys_resolved T _ _ _ Hinit) as [Hsym Hnum]. split.
  - intros s Hs. apply Hsym in Hs as (k & c & z & _ & Hres).
    destruct (resolve_row T k z s Hres) as [_ (r & Hin & <-)].
    destruct (row_SYMBOL_TO_Z T r Hin) as (z' & Hz'). split; [eauto|].
    eapply en_sorter_total; eauto.
  - intros z Hz. apply Hnum in Hz as (k & c & s & _ & Hres).
    destruct (resolve_row T k z s Hres) as [(r & Hin & <-) _]. split.
    + apply row_Z_TO_SYMBOL. exact Hin.
    + apply row_Z_TO_EN. exact Hin.
Qed.

Lemma init_elements_known_witness :
  let f := {| _z_to_count := [(2, 1); (17, 2)];
              _symbol_to_count := [("He", 1); ("Cl", 2)]; _charge := 0 |} in
  (forall s, In s (dict_keys (_symbol_to_count f)) ->
     (exists z, getitem_str (_SYMBOL_TO_Z periodic_table_excerpt) s = Ok z)
     /\ (exists k, en_sorter periodic_table_excerpt s = Ok k))
  /\ (forall z, In z (dict_keys (_z_to_count f)) ->
        (exists s, getitem_int (_Z_TO_SYMBOL periodic_table_excerpt) z = Ok s)
        /\ (exists en, getitem_int (_Z_TO_EN periodic_table_excerpt) z = Ok en)).
Proof.
  intros f.
  apply (init_elements_known periodic_table_excerpt
           [(KInt 2, 1); (KStr "cl", 2)] 0 f).
  reflexivity.
Defined.

(** X5.  Construction does not reorder.  When the keys of the input all
    resolve, the formula is made; if they stand for pairwise different
    symbols, the dictionary by symbol lists the symbols with their counts
    in the order of the input, and likewise the dictionary by number if
    the numbers are pairwise different. *)
Theorem init_keeps_input_order T atom_count charge rs :
  mapM (resolve_item T) atom_count = Ok rs ->
  exists f,
    __init__ T atom_count charge = Ok f
    /\ _charge f = charge
    /\ (NoDup (map fst (map symbol_item rs)) ->
        _symbol_to_count f = map symbol_item rs)
    /\ (NoDup (map fst (map z_item rs)) -> _z_to_count f = map z_item rs).
Proof.
  intros Hrs. rewrite init_eq, Hrs. simpl. eexists. split; [reflexivity|]. simpl.
  split; [reflexivity|]. split; intros Hnd.
  - apply (dict_of_items_NoDup String.eqb String.eqb_eq). exact Hnd.
  - apply (dict_of_items_NoDup Z.eqb Z.eqb_eq). exact Hnd.
Qed.

Lemma init_keeps_input_order_witness :
  exists f,
    __init__ periodic_table_excerpt [(KStr "o", 2); (KInt 1, 1); (KStr "C ", 1)] 1
      = Ok f
    /\ _charge f = 1
    /\ (NoDup (map fst (map symbol_item [(8, "O", 2); (1, "H", 1); (6, "C", 1)])) ->
        _symbol_to_count f
        = map symbol_item [(8, "O", 2); (1, "H", 1); (6, "C", 1)])
    /\ (NoDup (map fst (map z_item [(8, "O", 2); (1, "H", 1); (6, "C", 1)])) ->
        _z_to_count f = map z_item [(8, "O", 2); (1, "H", 1); (6, "C", 1)]).
Proof.
  apply (init_keeps_input_order periodic_table_excerpt
           [(KStr "o", 2); (KInt 1, 1); (KStr "C ", 1)] 1
           [(8, "O", 2); (1, "H", 1); (6, "C", 1)]).
  reflexivity.
Defined.

(** X6.  In a table where no atomic number and no symbol has two rows,
    the two dictionaries of a constructed formula stay in step: the
    dictionary by number lists, in the order of the dictionary by symbol,
    the number of each symbol with the count of that symbol. *)
Theorem init_dictionaries_in_step T atom_count charge f :
  table_z_unique T -> table_symbol_unique T ->
  __init__ T atom_count charge = Ok f ->
  _z_to_count f = by_number T (_symbol_to_count f)
  /\ List.length (_z_to_count f) = List.length (_symbol_to_count f).
Proof.
  intros Hz Hs Hinit. rewrite (init_views_in_step T Hz Hs _ _ _ Hinit).
  split; [reflexivity|]. unfold by_number. apply length_map.
Qed.

Lemma init_dictionaries_in_step_witness :
  let f := {| _z_to_count := [(8, 1); (1, 5); (11, 1)];
              _symbol_to_count := [("O", 1); ("H", 5); ("Na", 1)];
              _charge := 0 |} in
  _z_to_count f = by_number periodic_table_excerpt (_symbol_to_count f)
  /\ List.length (_z_to_count f) = List.length (_symbol_to_count f).
Proof.
  intros f.
  apply (init_dictionaries_in_step periodic_table_excerpt
           [(KInt 8, 1); (KStr "h", 2); (KInt 11, 1); (KInt 1, 5)] 0 f).
  - exact excerpt_z_unique.
  - exact excerpt_symbol_unique.
  - reflexivity.
Defined.

(** ** What depends on the keys alone *)

Section DictKeys.
Context {K V : Type}.
Variable eqb : K -> K -> bool.

Lemma dict_keys_set_keys (d1 d2 : dict K V) k v1 v2 :
  dict_keys d1 = dict_keys d2 ->
  dict_keys (dict_set eqb d1 k v1) = dict_keys (dict_set eqb d2 k v2).
Proof.
  revert d2; induction d1 as [|[k1 w1] d1 IH]; intros [|[k2 w2] d2] H;
    try discriminate; [reflexivity|].
  simpl in H. injection H as -> H. simpl.
  destruct (eqb k2 k); simpl; f_equal; auto.
Qed.

Lemma dict_keys_update_keys (i1 i2 : list (K * V)) (d1 d2 : dict K V) :
  dict_keys d1 = dict_keys d2 -> map fst i1 = map fst i2 ->
  dict_keys (dict_update eqb d1 i1) = dict_keys (dict_update eqb d2 i2).
Proof.
  revert i2 d1 d2; induction i1 as [|[k1 v1] i1 IH]; intros [|[k2 v2] i2] d1 d2 Hd Hi;
    try discriminate; [exact Hd|].
  simpl in Hi. injection Hi as -> Hi. simpl.
  apply IH; [|exact Hi]. apply dict_keys_set_keys. exact Hd.
Qed.

Lemma dict_get_keys (d1 d2 : dict K V) k :
  dict_keys d1 = dict_keys d2 ->
  (dict_get eqb d1 k = None <-> dict_get eqb d2 k = None).
Proof.
  revert d2; induction d1 as [|[k1 w1] d1 IH]; intros [|[k2 w2] d2] H;
    try discriminate; [tauto|].
  simpl in H. injection H as -> H. simpl.
  destruct (eqb k2 k); [split; discriminate | auto].
Qed.
End DictKeys.

Lemma resolve_item_pair T k c :
  resolve_item T (k, c) = ('(z, symbol) <- resolve T k ;; Ok (z, symbol, c)).
Proof. reflexivity. Qed.

Lemma resolve_items_keys T ac1 ac2 :
  map fst ac1 = map fst ac2 ->
  match mapM (resolve_item T) ac1, mapM (resolve_item T) ac2 with
  | Ok r1, Ok r2 => map fst r1 = map fst r2
  | Raise e1, Raise e2 => e1 = e2
  | _, _ => False
  end.
Proof.
  revert ac2; induction ac1 as [|[k1 c1] ac1 IH]; intros [|[k2 c2] ac2] H;
    try discriminate; [reflexivity|].
  simpl in H. injection H as -> H. specialize (IH ac2 H). cbn [mapM].
  rewrite !resolve_item_pair.
  destruct (resolve T k2) as [[z s]|e]; simpl; [|reflexivity].
  destruct (mapM (resolve_item T) ac1), (mapM (resolve_item T) ac2); simpl;
    try contradiction; [|exact IH].
  rewrite IH. reflexivity.
Qed.

Lemma init_keys_only T ac1 ac2 charge1 charge2 :
  map fst ac1 = map fst ac2 ->
  same_keys_outcome (__init__ T ac1 charge1) (__init__ T ac2 charge2).
Proof.
  intros H. rewrite !init_eq. pose proof (resolve_items_keys T ac1 ac2 H) as Hrs.
  destruct (mapM (resolve_item T) ac1) as [r1|e1],
           (mapM (resolve_item T) ac2) as [r2|e2]; simpl; try contradiction;
    [|exact Hrs].
  rewrite !dict_of_items_update. split; apply dict_keys_update_keys;
    try reflexivity; unfold symbol_item, z_item; rewrite !map_map; simpl.
  - rewrite <- (map_map fst snd r1), <- (map_map fst snd r2), Hrs. reflexivity.
  - rewrite <- (map_map fst fst r1), <- (map_map fst fst r2), Hrs. reflexivity.
Qed.

(** X7.  Construction looks at the keys only.  Two inputs with the same
    keys in the same order, whatever their counts (zero and negative ones
    too) and charges, both give a formula, with the same symbols and
    numbers in the same order, or both raise the same exception: no count
    and no charge is ever rejected. *)
Theorem init_never_checks_counts T ac1 ac2 charge1 charge2 :
  map fst ac1 = map fst ac2 ->
  same_keys_outcome (__init__ T ac1 charge1) (__init__ T ac2 charge2).
Proof. apply init_keys_only. Qed.

Lemma init_never_checks_counts_witness :
  same_keys_outcome
    (__init__ periodic_table_excerpt [(KStr "O", 2); (KInt 1, 1)] 0)
    (__init__ periodic_table_excerpt [(KStr "O", 0); (KInt 1, -3)] 7).
Proof.
  apply (init_never_checks_counts periodic_table_excerpt
           [(KStr "O", 2); (KInt 1, 1)] [(KStr "O", 0); (KInt 1, -3)] 0 7).
  reflexivity.
Defined.

Lemma getitem_str_keys (c1 c2 : dict string Z) s :
  dict_keys c1 = dict_keys c2 ->
  (exists v1 v2, getitem_str c1 s = Ok v1 /\ getitem_str c2 s = Ok v2)
  \/ (getitem_str c1 s = Raise (KeyError_str s)
      /\ getitem_str c2 s = Raise (KeyError_str s)).
Proof.
  intros H. unfold getitem_str.
  pose proof (dict_get_keys String.eqb c1 c2 s H) as [H1 H2].
  destruct (dict_get String.eqb c1 s) as [v1|], (dict_get String.eqb c2 s) as [v2|];
    eauto.
  - discriminate (H2 eq_refl).
  - discriminate (H1 eq_refl).
Qed.

Lemma getitems_keys (c1 c2 : dict string Z) elements :
  dict_keys c1 = dict_keys c2 ->
  match mapM (fun symbol => c <- getitem_str c1 symbol ;; Ok (symbol, c)) elements,
        mapM (fun symbol => c <- getitem_str c2 symbol ;; Ok (symbol, c)) elements
  with
  | Ok i1, Ok i2 => map fst i1 = map fst i2
  | Raise e1, Raise e2 => e1 = e2
  | _, _ => False
  end.
Proof.
  intros H. induction elements as [|s l IH]; [reflexivity|]. cbn [mapM].
  destruct (getitem_str_keys c1 c2 s H) as [(v1 & v2 & -> & ->) | [-> ->]];
    [|reflexivity].
  simpl. destruct (mapM _ l), (mapM _ l); simpl; try contradiction; [|exact IH].
  rewrite IH. reflexivity.
Qed.

Lemma sorted_elements_keys T (c1 c2 : dict string Z) :
  dict_keys c1 = dict_keys c2 -> sorted_elements T c1 = sorted_elements T c2.
Proof.
  intros H. unfold sorted_elements, dict_contains.
  pose proof (dict_get_keys String.eqb c1 c2 "C" H) as HC. rewrite H.
  destruct (dict_get String.eqb c1 "C"), (dict_get String.eqb c2 "C");
    try reflexivity; exfalso; destruct HC as [H1 H2];
    (discriminate (H1 eq_refl) || discriminate (H2 eq_refl)).
Qed.

Lemma sort_keys_only T f1 f2 method :
  dict_keys (_symbol_to_count f1) = dict_keys (_symbol_to_count f2) ->
  same_keys_outcome (sort T f1 method) (sort T f2 method).
Proof.
  intros H. unfold sort. destruct (String.eqb method "iupac"); [|reflexivity].
  unfold _sort_iupac. rewrite (sorted_elements_keys T _ _ H).
  destruct (sorted_elements T (_symbol_to_count f2)) as [elements|e]; simpl;
    [|reflexivity].
  pose proof (getitems_keys _ _ elements H) as Hi.
  destruct (mapM _ elements) as [i1|e1], (mapM _ elements) as [i2|e2]; simpl;
    try contradiction; [|exact Hi].
  apply init_keys_only. rewrite !map_map. simpl.
  rewrite <- !(map_map fst KStr). f_equal.
  rewrite !dict_of_items_update.
  apply (dict_keys_update_keys String.eqb i1 i2 [] []); [reflexivity | exact Hi].
Qed.

(** X8.  The order [sort] gives depends on the symbols of the formula and
    their order alone, not on the counts and not on the charge: on two
    formulas with the same symbols in the same order it returns formulas
    with the same symbols and numbers in the same order, or raises the
    same exception, whatever the method. *)
Theorem sort_never_looks_at_counts T f1 f2 method :
  dict_keys (_symbol_to_count f1) = dict_keys (_symbol_to_count f2) ->
  same_keys_outcome (sort T f1 method) (sort T f2 method).
Proof. apply sort_keys_only. Qed.

Lemma sort_never_looks_at_counts_witness :
  same_keys_outcome
    (sort periodic_table_excerpt
       {| _z_to_count := [(8, 2); (11, 1)];
          _symbol_to_count := [("O", 2); ("Na", 1)]; _charge := 0 |} "iupac")
    (sort periodic_table_excerpt
       {| _z_to_count := [(8, 7); (11, 5)];
          _symbol_to_count := [("O", 7); ("Na", 5)]; _charge := -2 |} "iupac").
Proof.
  apply (sort_never_looks_at_counts periodic_table_excerpt
           {| _z_to_count := [(8, 2); (11, 1)];
              _symbol_to_count := [("O", 2); ("Na", 1)]; _charge := 0 |}
           {| _z_to_count := [(8, 7); (11, 5)];
              _symbol_to_count := [("O", 7); ("Na", 5)]; _charge := -2 |} "iupac").
  reflexivity.
Defined.

(** ** When the sort succeeds *)

Lemma init_keys_NoDup T atom_count charge f :
  __init__ T atom_count charge = Ok f ->
  NoDup (dict_keys (_symbol_to_count f)) /\ NoDup (dict_keys (_z_to_count f)).
Proof.
  rewrite init_eq. intros H. apply bind_ok_inv in H as (rs & _ & H).
  injection H as <-. simpl. split.
  - apply (dict_of_items_keys_NoDup String.eqb String.eqb_eq).
  - apply (dict_of_items_keys_NoDup Z.eqb Z.eqb_eq).
Qed.

(** X9.  With a table whose symbols are in capitalized form, [sort] with
    ["iupac"] fails on a constructed formula in one case only, carbon
    without hydrogen, and then with [KeyError] for ["H"]; on every other
    constructed formula it returns a formula. *)
Theorem sort_iupac_fails_only_without_hydrogen T atom_count charge self :
  table_capitalized T ->
  __init__ T atom_count charge = Ok self ->
  let carbon := dict_contains String.eqb (_symbol_to_count self) "C" in
  let hydrogen := dict_contains String.eqb (_symbol_to_count self) "H" in
  (carbon && negb hydrogen = true ->
   sort T self "iupac" = Raise (KeyError_str "H"))
  /\ (carbon && negb hydrogen = false ->
      exists f, sort T self "iupac" = Ok f).
Proof.
  intros Hcap Hinit carbon hydrogen. subst carbon hydrogen. split.
  - intros H. apply andb_true_iff in H as [HC HH]. apply negb_true_iff in HH.
    apply sort_iupac_no_hydrogen; assumption.
  - intros H.
    destruct (dict_contains String.eqb (_symbol_to_count self) "C") eqn:HC.
    + destruct (dict_contains String.eqb (_symbol_to_count self) "H") eqn:HH;
        [|discriminate].
      destruct (sort_iupac_carbon_hydrogen T _ _ _ Hcap Hinit HC HH)
        as (f & rest & Hsort & _). eauto.
    + destruct (init_symbols_ok T _ _ _ Hcap Hinit) as [Hnd Hok].
      destruct (sort_iupac_reorder T self _ (sorted_elements_en T _ HC Hok)
                  (sorted_perm _ _ _) Hnd Hok) as (zc & Hsort).
      eexists. exact Hsort.
Qed.

Lemma sort_iupac_fails_only_without_hydrogen_witness :
  let self := {| _z_to_count := [(6, 1); (8, 2)];
                 _symbol_to_count := [("C", 1); ("O", 2)]; _charge := 0 |} in
  let carbon := dict_contains String.eqb (_symbol_to_count self) "C" in
  let hydrogen := dict_contains String.eqb (_symbol_to_count self) "H" in
  (carbon && negb hydrogen = true ->
   sort periodic_table_excerpt self "iupac" = Raise (KeyError_str "H"))
  /\ (carbon && negb hydrogen = false ->
      exists f, sort periodic_table_excerpt self "iupac" = Ok f).
Proof.
  intros self.
  apply (sort_iupac_fails_only_without_hydrogen periodic_table_excerpt
           [(KInt 6, 1); (KStr "o", 2)] 0 self).
  - exact excerpt_capitalized.
  - reflexivity.
Defined.

(** ** The order does not depend on the order of the input *)

Section SortedUnique.
Context {A K : Type}.
Variable ltb : K -> K -> bool.
Variable key : A -> K.
Hypothesis ltb_asym : forall a b, ltb a b = true -> ltb b a = false.
Hypothesis ltb_trans :
  forall a b c, ltb a b = true -> ltb b c = true -> ltb a c = true.

Lemma Sorted_precedes_strict l :
  (forall x y, In x l -> In y l -> x <> y ->
     ltb (key x) (key y) = true \/ ltb (key y) (key x) = true) ->
  NoDup l -> Sorted (precedes ltb key) l ->
  StronglySorted (fun x y => ltb (key x) (key y) = true) l.
Proof.
  intros Hsep Hnd Hs. induction Hs as [|x l Hs IH Hhd]; constructor.
  - apply IH.
    + intros a b Ha Hb. apply Hsep; right; assumption.
    + inversion Hnd; assumption.
  - assert (IH' : StronglySorted (fun x y => ltb (key x) (key y) = true) l).
    { apply IH.
      - intros a b Ha Hb. apply Hsep; right; assumption.
      - inversion Hnd; assumption. }
    destruct Hhd as [|y l Hxy]; constructor.
    + assert (Hne : x <> y).
      { intros ->. inversion Hnd as [|? ? Hni _]. apply Hni. left. reflexivity. }
      destruct (Hsep x y) as [H|H]; simpl; auto.
      unfold precedes in Hxy. congruence.
    + assert (Hx : ltb (key x) (key y) = true).
      { assert (Hne : x <> y).
        { intros ->. inversion Hnd as [|? ? Hni _]. apply Hni. left. reflexivity. }
        destruct (Hsep x y) as [H|H]; simpl; auto.
        unfold precedes in Hxy. congruence. }
      inversion IH' as [|? ? _ Hall]; subst.
      eapply Forall_impl; [|exact Hall]. simpl. intros z Hz.
      eapply ltb_trans; eauto.
Qed.

Lemma StronglySorted_perm_eq l1 l2 :
  StronglySorted (fun x y => ltb (key x) (key y) = true) l1 ->
  StronglySorted (fun x y => ltb (key x) (key y) = true) l2 ->
  Permutation l1 l2 -> l1 = l2.
Proof.
  intros H1. revert l2. induction H1 as [|a l1 H1 IH Ha]; intros l2 H2 Hp.
  - apply Permutation_nil in Hp. congruence.
  - destruct H2 as [|b l2 H2 Hb].
    + apply Permutation_sym, Permutation_nil in Hp. discriminate.
    + assert (Hab : a = b).
      { assert (Hin1 : In a (b :: l2)).
        { apply (Permutation_in _ Hp). left. reflexivity. }
        assert (Hin2 : In b (a :: l1)).
        { apply (Permutation_in _ (Permutation_sym Hp)). left. reflexivity. }
        destruct Hin1 as [->|Hin1]; [reflexivity|].
        destruct Hin2 as [->|Hin2]; [reflexivity|].
        rewrite Forall_forall in Ha, Hb.
        pose proof (Ha b Hin2) as Hlt1. pose proof (Hb a Hin1) as Hlt2.
        apply ltb_asym in Hlt1. congruence. }
      subst b. f_equal. apply IH; [exact H2|].
      eapply Permutation_cons_inv; eauto.
Qed.

(** Lists with the same elements, no two of them tied, are sorted into
    the same list. *)
Lemma sorted_perm_unique l1 l2 :
  (forall x y, In x l1 -> In y l1 -> x <> y ->
     ltb (key x) (key y) = true \/ ltb (key y) (key x) = true) ->
  NoDup l1 -> Permutation l1 l2 ->
  sorted ltb key l1 = sorted ltb key l2.
Proof.
  intros Hsep Hnd Hp.
  assert (Hp1 : Permutation (sorted ltb key l1) l1) by apply sorted_perm.
  assert (Hp2 : Permutation (sorted ltb key l2) l1).
  { rewrite sorted_perm. symmetry. exact Hp. }
  apply StronglySorted_perm_eq.
  - apply Sorted_precedes_strict.
    + intros x y Hx Hy.
      apply Hsep; [exact (Permutation_in _ Hp1 Hx) | exact (Permutation_in _ Hp1 Hy)].
    + exact (Permutation_NoDup (Permutation_sym Hp1) Hnd).
    + apply sorted_Sorted. exact ltb_asym.
  - apply Sorted_precedes_strict.
    + intros x y Hx Hy.
      apply Hsep; [exact (Permutation_in _ Hp2 Hx) | exact (Permutation_in _ Hp2 Hy)].
    + exact (Permutation_NoDup (Permutation_sym Hp2) Hnd).
    + apply sorted_Sorted. exact ltb_asym.
  - rewrite Hp1. symmetry. exact Hp2.
Qed.
End SortedUnique.

Lemma ascii_compare_refl a : Ascii.compare a a = Eq.
Proof. unfold Ascii.compare. apply N.compare_refl. Qed.

Lemma ascii_compare_lt_trans a b c :
  Ascii.compare a b = Lt -> Ascii.compare b c = Lt -> Ascii.compare a c = Lt.
Proof.
  unfold Ascii.compare. rewrite !N.compare_lt_iff. apply N.lt_trans.
Qed.

Lemma string_compare_lt_trans s1 s2 s3 :
  String.compare s1 s2 = Lt -> String.compare s2 s3 = Lt ->
  String.compare s1 s3 = Lt.
Proof.
  revert s2 s3; induction s1 as [|a s1 IH]; intros [|b s2] [|c s3]; simpl;
    try discriminate; try reflexivity.
  destruct (Ascii.compare a b) eqn:Eab; try discriminate;
    destruct (Ascii.compare b c) eqn:Ebc; try discriminate.
  - apply Ascii.compare_eq_iff in Eab, Ebc. subst.
    rewrite ascii_compare_refl. apply IH.
  - apply Ascii.compare_eq_iff in Eab. subst. rewrite Ebc. reflexivity.
  - apply Ascii.compare_eq_iff in Ebc. subst. rewrite Eab. reflexivity.
  - rewrite (ascii_compare_lt_trans a b c Eab Ebc). reflexivity.
Qed.

Lemma string_ltb_trans a b c :
  String.ltb a b = true -> String.ltb b c = true -> String.ltb a c = true.
Proof.
  unfold String.ltb. intros H1 H2.
  destruct (String.compare a b) eqn:E1; try discriminate.
  destruct (String.compare b c) eqn:E2; try discriminate.
  rewrite (string_compare_lt_trans a b c E1 E2). reflexivity.
Qed.

Lemma string_ltb_total a b :
  a <> b -> String.ltb a b = true \/ String.ltb b a = true.
Proof.
  intros Hne. unfold String.ltb. rewrite (String.compare_antisym a b).
  destruct (String.compare b a) eqn:E; simpl; auto.
  apply String.compare_eq_iff in E. congruence.
Qed.

Lemma en_ltb_trans a b c :
  en_ltb a b = true -> en_ltb b c = true -> en_ltb a c = true.
Proof.
  destruct a as [p|], b as [q|], c as [r|]; simpl; try congruence.
  rewrite !Qltb_lt. apply Qlt_trans.
Qed.

Lemma dict_get_perm (d1 d2 : dict string Z) k :
  NoDup (dict_keys d1) -> NoDup (dict_keys d2) -> Permutation d1 d2 ->
  dict_get String.eqb d1 k = dict_get String.eqb d2 k.
Proof.
  intros H1 H2 Hp. destruct (dict_get String.eqb d1 k) as [v|] eqn:E.
  - apply (dict_get_in String.eqb String.eqb_eq) in E.
    apply (Permutation_in _ Hp) in E.
    symmetry. apply (in_dict_get String.eqb String.eqb_eq); assumption.
  - apply (dict_get_none String.eqb String.eqb_eq) in E.
    symmetry. apply (dict_get_none String.eqb String.eqb_eq).
    intros Hin. apply E. eapply Permutation_in; [|exact Hin].
    apply Permutation_map. symmetry. exact Hp.
Qed.

Lemma mapM_ext {A B : Type} (f g : A -> result B) l :
  (forall a, f a = g a) -> mapM f l = mapM g l.
Proof.
  intros H. induction l as [|a l IH]; simpl; [reflexivity|].
  rewrite H, IH. reflexivity.
Qed.

(** The sort of two formulas with the same items and the same charge is
    the same once their elements come in the same order. *)
Lemma sort_iupac_same_items T f1 f2 :
  NoDup (dict_keys (_symbol_to_count f1)) ->
  NoDup (dict_keys (_symbol_to_count f2)) ->
  Permutation (_symbol_to_count f1) (_symbol_to_count f2) ->
  _charge f1 = _charge f2 ->
  sorted_elements T (_symbol_to_count f1) = sorted_elements T (_symbol_to_count f2) ->
  _sort_iupac T f1 = _sort_iupac T f2.
Proof.
  intros H1 H2 Hp Hch Hse. unfold _sort_iupac. rewrite Hse, Hch.
  destruct (sorted_elements T (_symbol_to_count f2)) as [elements|e]; [|reflexivity].
  simpl. rewrite (mapM_ext _ (fun symbol =>
    c <- getitem_str (_symbol_to_count f2) symbol ;; Ok (symbol, c))); [reflexivity|].
  intros s. unfold getitem_str. rewrite (dict_get_perm _ _ s H1 H2 Hp). reflexivity.
Qed.

Lemma init_charge T atom_count charge f :
  __init__ T atom_count charge = Ok f -> _charge f = charge.
Proof.
  rewrite init_eq. intros H. apply bind_ok_inv in H as (rs & _ & H).
  injection H as <-. reflexivity.
Qed.

Lemma init_en_sorter_total T atom_count charge f s :
  __init__ T atom_count charge = Ok f ->
  In s (dict_keys (_symbol_to_count f)) -> exists k, en_sorter T s = Ok k.
Proof.
  intros Hinit Hs. destruct (init_keys_resolved T _ _ _ Hinit) as [Hsym _].
  apply Hsym in Hs as (k & c & z & _ & Hres).
  destruct (resolve_row T k z s Hres) as [_ (r & Hin & <-)].
  destruct (row_SYMBOL_TO_Z T r Hin) as (z' & Hz').
  eapply en_sorter_total; eauto.
Qed.

Lemma sorted_elements_en_total T (counts : dict string Z) :
  dict_contains String.eqb counts "C" = false ->
  (forall s, In s (dict_keys counts) -> exists k, en_sorter T s = Ok k) ->
  sorted_elements T counts = Ok (sorted en_ltb (en_of T) (dict_keys counts)).
Proof.
  intros HC Hok. unfold sorted_elements. rewrite HC.
  rewrite (mapM_ok_map _ (fun e => (en_of T e, e))).
  - simpl. rewrite sorted_decorated, map_map. simpl. rewrite map_id. reflexivity.
  - intros s Hs. destruct (Hok s Hs) as (k & Hk). unfold en_of. rewrite Hk.
    reflexivity.
Qed.

Lemma dict_contains_perm (d1 d2 : dict string Z) k :
  Permutation d1 d2 ->
  dict_contains String.eqb d1 k = dict_contains String.eqb d2 k.
Proof.
  intros Hp.
  assert (Hk : Permutation (dict_keys d1) (dict_keys d2)) by (apply Permutation_map, Hp).
  destruct (dict_contains String.eqb d1 k) eqn:E1,
           (dict_contains String.eqb d2 k) eqn:E2; try reflexivity.
  - apply (dict_contains_in String.eqb String.eqb_eq) in E1.
    apply (Permutation_in _ Hk) in E1.
    apply (dict_contains_in String.eqb String.eqb_eq) in E1. congruence.
  - apply (dict_contains_in String.eqb String.eqb_eq) in E2.
    apply (Permutation_in _ (Permutation_sym Hk)) in E2.
    apply (dict_contains_in String.eqb String.eqb_eq) in E2. congruence.
Qed.

(** X10.  With carbon the sorted formula does not depend on the order of
    the input: two constructed formulas with the same items and the same
    charge, in whatever orders, are sorted by ["iupac"] into the same
    formula (or both raise, for want of hydrogen). *)
Theorem sort_iupac_carbon_canonical T ac1 ac2 charge f1 f2 :
  __init__ T ac1 charge = Ok f1 ->
  __init__ T ac2 charge = Ok f2 ->
  Permutation (_symbol_to_count f1) (_symbol_to_count f2) ->
  dict_contains String.eqb (_symbol_to_count f1) "C" = true ->
  sort T f1 "iupac" = sort T f2 "iupac".
Proof.
  intros H1 H2 Hp HC.
  destruct (init_keys_NoDup T _ _ _ H1) as [Hnd1 _].
  destruct (init_keys_NoDup T _ _ _ H2) as [Hnd2 _].
  change (_sort_iupac T f1 = _sort_iupac T f2).
  apply sort_iupac_same_items; try assumption.
  - rewrite (init_charge T _ _ _ H1), (init_charge T _ _ _ H2). reflexivity.
  - rewrite !sorted_elements_carbon;
      [| rewrite <- (dict_contains_perm _ _ "C" Hp) |]; try exact HC.
    f_equal. unfold carbon_order. f_equal. f_equal.
    apply sorted_perm_unique.
    + exact string_ltb_asym.
    + exact string_ltb_trans.
    + intros x y _ _. apply string_ltb_total.
    + apply NoDup_filter. exact Hnd1.
    + assert (Hk : Permutation (dict_keys (_symbol_to_count f1))
                     (dict_keys (_symbol_to_count f2)))
        by (apply Permutation_map, Hp).
      apply NoDup_Permutation; try (apply NoDup_filter; assumption).
      intros x. rewrite !filter_In. split; intros [Hin Hx]; split; try exact Hx.
      * exact (Permutation_in _ Hk Hin).
      * exact (Permutation_in _ (Permutation_sym Hk) Hin).
Qed.

Lemma sort_iupac_carbon_canonical_witness :
  sort periodic_table_excerpt
    {| _z_to_count := [(8, 1); (1, 4); (7, 2); (6, 1)];
       _symbol_to_count := [("O", 1); ("H", 4); ("N", 2); ("C", 1)];
       _charge := 0 |} "iupac"
  = sort periodic_table_excerpt
      {| _z_to_count := [(7, 2); (6, 1); (8, 1); (1, 4)];
         _symbol_to_count := [("N", 2); ("C", 1); ("O", 1); ("H", 4)];
         _charge := 0 |} "iupac".
Proof.
  apply (sort_iupac_carbon_canonical periodic_table_excerpt
           [(KStr "O", 1); (KStr "H", 4); (KStr "N", 2); (KStr "C", 1)]
           [(KStr "N", 2); (KStr "C", 1); (KStr "O", 1); (KStr "H", 4)] 0).
  - reflexivity.
  - reflexivity.
  - simpl. apply Permutation_sym.
    apply (perm_trans (l' := [("N", 2); ("C", 1); ("H", 4); ("O", 1)])).
    + do 2 apply perm_skip. apply perm_swap.
    + apply (perm_trans (l' := [("N", 2); ("H", 4); ("C", 1); ("O", 1)])).
      * apply perm_skip. apply perm_swap.
      * apply (perm_trans (l' := [("H", 4); ("N", 2); ("C", 1); ("O", 1)])).
        -- apply perm_swap.
        -- apply (perm_trans (l' := [("H", 4); ("N", 2); ("O", 1); ("C", 1)])).
           ++ do 2 apply perm_skip. apply perm_swap.
           ++ apply (perm_trans (l' := [("H", 4); ("O", 1); ("N", 2); ("C", 1)])).
              ** apply perm_skip. apply perm_swap.
              ** apply perm_swap.
  - reflexivity.
Defined.

(** X11.  Without carbon the sorted formula does not depend on the order
    of the input as long as no two of its elements tie: two constructed
    formulas with the same items and the same charge, no two symbols of
    which have sort keys that compare equal, are sorted by ["iupac"] into
    the same formula. *)
Theorem sort_iupac_without_ties_canonical T ac1 ac2 charge f1 f2 :
  __init__ T ac1 charge = Ok f1 ->
  __init__ T ac2 charge = Ok f2 ->
  Permutation (_symbol_to_count f1) (_symbol_to_count f2) ->
  dict_contains String.eqb (_symbol_to_count f1) "C" = false ->
  (forall s t,
     In s (dict_keys (_symbol_to_count f1)) ->
     In t (dict_keys (_symbol_to_count f1)) -> s <> t ->
     en_ltb (en_of T s) (en_of T t) = true \/ en_ltb (en_of T t) (en_of T s) = true) ->
  sort T f1 "iupac" = sort T f2 "iupac".
Proof.
  intros H1 H2 Hp HC Hties.
  destruct (init_keys_NoDup T _ _ _ H1) as [Hnd1 _].
  destruct (init_keys_NoDup T _ _ _ H2) as [Hnd2 _].
  change (_sort_iupac T f1 = _sort_iupac T f2).
  apply sort_iupac_same_items; try assumption.
  - rewrite (init_charge T _ _ _ H1), (init_charge T _ _ _ H2). reflexivity.
  - rewrite !sorted_elements_en_total.
    + f_equal. apply sorted_perm_unique.
      * exact en_ltb_asym.
      * exact en_ltb_trans.
      * exact Hties.
      * exact Hnd1.
      * apply Permutation_map. exact Hp.
    + rewrite <- (dict_contains_perm _ _ "C" Hp). exact HC.
    + intros s. apply (init_en_sorter_total T _ _ _ s H2).
    + exact HC.
    + intros s. apply (init_en_sorter_total T _ _ _ s H1).
Qed.

Lemma sort_iupac_without_ties_canonical_witness :
  sort periodic_table_excerpt
    {| _z_to_count := [(8, 4); (11, 1); (17, 1)];
       _symbol_to_count := [("O", 4); ("Na", 1); ("Cl", 1)];
       _charge := 0 |} "iupac"
  = sort periodic_table_excerpt
      {| _z_to_count := [(17, 1); (8, 4); (11, 1)];
         _symbol_to_count := [("Cl", 1); ("O", 4); ("Na", 1)];
         _charge := 0 |} "iupac".
Proof.
  apply (sort_iupac_without_ties_canonical periodic_table_excerpt
           [(KInt 8, 4); (KStr "NA", 1); (KInt 17, 1)]
           [(KInt 17, 1); (KInt 8, 4); (KStr "na", 1)] 0).
  - reflexivity.
  - reflexivity.
  - simpl. apply (perm_trans (l' := [("O", 4); ("Cl", 1); ("Na", 1)])).
    + apply perm_skip. apply perm_swap.
    + apply perm_swap.
  - reflexivity.
  - simpl. intros s t Hs Ht Hne.
    destruct Hs as [<-|[<-|[<-|[]]]]; destruct Ht as [<-|[<-|[<-|[]]]];
      try congruence; vm_compute; auto.
Defined.

(** ** [from_counts] *)

(** X12.  With the default method, [from_counts] makes no formula from
    counts that have carbon and no hydrogen: the construction succeeds and
    the sort that follows raises [KeyError] for ["H"]. *)
Theorem from_counts_carbon_without_hydrogen T counts charge f :
  __init__ T counts charge = Ok f ->
  dict_contains String.eqb (_symbol_to_count f) "C" = true ->
  dict_contains String.eqb (_symbol_to_count f) "H" = false ->
  from_counts T counts charge (Some "iupac") = Raise (KeyError_str "H").
Proof.
  intros Hinit HC HH. unfold from_counts. rewrite Hinit. simpl.
  apply sort_iupac_no_hydrogen; assumption.
Qed.

Lemma from_counts_carbon_without_hydrogen_witness :
  from_counts periodic_table_excerpt [(KStr "C", 1); (KStr "O", 2)] 0 (Some "iupac")
  = Raise (KeyError_str "H").
Proof.
  apply (from_counts_carbon_without_hydrogen periodic_table_excerpt
           [(KStr "C", 1); (KStr "O", 2)] 0
           {| _z_to_count := [(6, 1); (8, 2)];
              _symbol_to_count := [("C", 1); ("O", 2)]; _charge := 0 |});
    reflexivity.
Defined.

(** X13.  The method of [from_counts] is looked at after the
    construction, and only if it is truthy.  A method other than ["iupac"]
    and [""] raises [ValueError] when the construction has succeeded and
    leaves the exception of the construction otherwise; the empty string,
    like [None], asks for no sort and raises nothing, though [sort] itself
    rejects it. *)
Theorem from_counts_method T counts charge method :
  method <> "" -> method <> "iupac" ->
  from_counts T counts charge (Some method)
    = (f <- __init__ T counts charge ;; Raise (ValueError method))
  /\ from_counts T counts charge (Some "") = __init__ T counts charge
  /\ from_counts T counts charge None = __init__ T counts charge
  /\ forall f, sort T f "" = Raise (ValueError "").
Proof.
  intros Hne Hm. apply String.eqb_neq in Hne, Hm.
  unfold from_counts, truthy, sort. rewrite Hne, Hm. simpl.
  destruct (__init__ T counts charge); simpl; repeat split; reflexivity.
Qed.

Lemma from_counts_method_witness :
  from_counts periodic_table_excerpt [(KStr "Xx", 1)] 0 (Some "hill")
    = (f <- __init__ periodic_table_excerpt [(KStr "Xx", 1)] 0 ;;
       Raise (ValueError "hill"))
  /\ from_counts periodic_table_excerpt [(KStr "Xx", 1)] 0 (Some "")
     = __init__ periodic_table_excerpt [(KStr "Xx", 1)] 0
  /\ from_counts periodic_table_excerpt [(KStr "Xx", 1)] 0 None
     = __init__ periodic_table_excerpt [(KStr "Xx", 1)] 0
  /\ forall f, sort periodic_table_excerpt f "" = Raise (ValueError "").
Proof.
  apply (from_counts_method periodic_table_excerpt [(KStr "Xx", 1)] 0 "hill");
    discriminate.
Defined.

(** A formula that [_sort_iupac] returns is sorted: the method returns
    it unchanged. *)
Lemma sort_iupac_fixed T self f1 :
  table_capitalized T ->
  NoDup (dict_keys (_symbol_to_count self)) ->
  Forall (symbol_ok T) (dict_keys (_symbol_to_count self)) ->
  _sort_iupac T self = Ok f1 -> _sort_iupac T f1 = Ok f1.
Proof.
  intros Hcap Hnd Hok Hsort.
  destruct (sort_iupac_ok_inv T self f1 Hnd Hok Hsort)
    as (elements & Hse & Hperm & Hsym & Hch).
  pose proof Hsort as Hinit1.
  rewrite (sort_iupac_eq T self elements Hse Hperm Hnd) in Hinit1.
  destruct (init_symbols_ok T _ _ _ Hcap Hinit1) as [Hnd1 Hok1].
  assert (Hkeys1 : dict_keys (_symbol_to_count f1) = elements).
  { rewrite Hsym. apply reorder_keys. }
  assert (Hfix : sorted_elements T (_symbol_to_count f1) = Ok elements).
  { rewrite <- Hse.
    destruct (dict_contains String.eqb (_symbol_to_count self) "C") eqn:HC.
    - assert (HC1 : dict_contains String.eqb (_symbol_to_count f1) "C" = true).
      { apply (dict_contains_in String.eqb String.eqb_eq). rewrite Hkeys1.
        apply (Permutation_in _ (Permutation_sym Hperm)).
        apply (dict_contains_in String.eqb String.eqb_eq). exact HC. }
      rewrite !sorted_elements_carbon by assumption. f_equal.
      rewrite sorted_elements_carbon in Hse by assumption. injection Hse as Hse.
      unfold carbon_order at 1. rewrite Hkeys1, <- Hse. unfold carbon_order.
      simpl filter. rewrite filter_all_true.
      + rewrite sorted_idem by apply string_ltb_asym. reflexivity.
      + apply Forall_forall. intros x Hx. apply sorted_in in Hx.
        apply filter_In in Hx. tauto.
    - assert (HC1 : dict_contains String.eqb (_symbol_to_count f1) "C" = false).
      { destruct (dict_contains String.eqb (_symbol_to_count f1) "C") eqn:HC1;
          [|reflexivity].
        apply (dict_contains_in String.eqb String.eqb_eq) in HC1.
        rewrite Hkeys1 in HC1. apply (Permutation_in _ Hperm) in HC1.
        apply (dict_contains_in String.eqb String.eqb_eq) in HC1. congruence. }
      rewrite !sorted_elements_en by assumption. f_equal.
      rewrite sorted_elements_en in Hse by assumption. injection Hse as Hse.
      rewrite Hkeys1, <- Hse. apply sorted_idem, en_ltb_asym. }
  rewrite <- Hkeys1 in Hfix.
  rewrite (sort_iupac_eq T f1 _ Hfix (Permutation_refl _) Hnd1).
  rewrite reorder_self by assumption. rewrite Hsym, Hch. exact Hinit1.
Qed.

(** X14.  What [from_counts] returns with the method ["iupac"] is the
    constructed formula rearranged and is sorted: it has the items of the
    formula the constructor makes from the counts, in another order, and
    the charge given, and sorting it again returns it unchanged. *)
Theorem from_counts_iupac_sorted T counts charge f :
  table_capitalized T ->
  from_counts T counts charge (Some "iupac") = Ok f ->
  exists f0,
    __init__ T counts charge = Ok f0
    /\ Permutation (_symbol_to_count f) (_symbol_to_count f0)
    /\ _charge f = charge
    /\ sort T f "iupac" = Ok f.
Proof.
  intros Hcap H. unfold from_counts in H.
  apply bind_ok_inv in H as (f0 & Hinit & Hsort). simpl in Hsort.
  change (_sort_iupac T f0 = Ok f) in Hsort.
  destruct (init_symbols_ok T _ _ _ Hcap Hinit) as [Hnd Hok].
  destruct (sort_iupac_ok_inv T f0 f Hnd Hok Hsort)
    as (elements & _ & Hperm & Hsym & Hch).
  exists f0. split; [exact Hinit|]. split; [|split].
  - rewrite Hsym. apply reorder_perm; assumption.
  - rewrite Hch. eapply init_charge; eauto.
  - change (_sort_iupac T f = Ok f). eapply sort_iupac_fixed; eauto.
Qed.

Lemma from_counts_iupac_sorted_witness :
  let f := {| _z_to_count := [(6, 2); (1, 6); (8, 1)];
              _symbol_to_count := [("C", 2); ("H", 6); ("O", 1)];
              _charge := 0 |} in
  exists f0,
    __init__ periodic_table_excerpt [(KStr "o", 1); (KInt 1, 6); (KStr "C", 2)] 0
      = Ok f0
    /\ Permutation (_symbol_to_count f) (_symbol_to_count f0)
    /\ _charge f = 0
    /\ sort periodic_table_excerpt f "iupac" = Ok f.
Proof.
  intros f.
  apply (from_counts_iupac_sorted periodic_table_excerpt
           [(KStr "o", 1); (KInt 1, 6); (KStr "C", 2)] 0 f).
  - exact excerpt_capitalized.
  - reflexivity.
Defined.

(** ** Rendering a charge that is not negative *)

(** X15.  For a charge that is not negative the rendering is, in the
    order of the dictionary, each symbol, followed by its count in a
    subscript unless the count is 1, and then nothing for the charge 0,
    [\textsuperscript{+}] for the charge 1 and the charge in digits with
    [+] after it in a superscript for a greater one. *)
Theorem latex_nonnegative_charge self :
  0 <= _charge self ->
  latex self
  = String.concat ""
      (map (fun item : string * Z =>
              if snd item =? 1 then fst item
              else fst item ++ "\textsubscript{" ++ str_int (snd item) ++ "}")
           (_symbol_to_count self))
    ++ (if _charge self =? 0 then ""
        else if _charge self =? 1 then "\textsuperscript{+}"
        else "\textsuperscript{" ++ str_int (_charge self) ++ "+}").
Proof.
  intros Hc. rewrite latex_eq. f_equal.
  - f_equal. apply map_ext. intros [symbol count]. reflexivity.
  - destruct (Z.eqb_spec (_charge self) 0) as [->|Hne]; [reflexivity|].
    rewrite charge_suffix_positive by lia.
    destruct (_charge self =? 1); reflexivity.
Qed.

Lemma latex_nonnegative_charge_witness :
  latex {| _z_to_count := [(7, 1); (1, 4)];
           _symbol_to_count := [("N", 1); ("H", 4)]; _charge := 1 |}
  = "NH\textsubscript{4}\textsuperscript{+}".
Proof.
  apply (latex_nonnegative_charge
           {| _z_to_count := [(7, 1); (1, 4)];
              _symbol_to_count := [("N", 1); ("H", 4)]; _charge := 1 |}).
  simpl. lia.
Defined.

(** ** The first key that fails *)

(** X16.  The keys are resolved in the order of the input and the first
    one that fails decides the exception, whatever comes after it: when
    the keys before a key all resolve and that key raises, the
    construction raises the same exception.  So a key that is neither an
    integer nor a string, after keys that resolve, raises [TypeError]. *)
Theorem init_first_failure T pre k count post charge rs e :
  mapM (resolve_item T) pre = Ok rs ->
  resolve T k = Raise e ->
  __init__ T (pre ++ (k, count) :: post) charge = Raise e
  /\ (k = KOther -> e = TypeError).
Proof.
  intros Hpre Hk. split.
  - rewrite init_eq, mapM_app, Hpre. simpl. rewrite resolve_item_pair, Hk.
    reflexivity.
  - intros ->. simpl in Hk. congruence.
Qed.

Lemma init_first_failure_witness :
  __init__ periodic_table_excerpt
    ([(KStr "H", 2); (KInt 8, 1)] ++ (KOther, 1) :: [(KStr "Xx", 1)]) 0
    = Raise TypeError
  /\ (KOther = KOther -> TypeError = TypeError).
Proof.
  apply (init_first_failure periodic_table_excerpt
           [(KStr "H", 2); (KInt 8, 1)] KOther 1 [(KStr "Xx", 1)] 0
           [(1, "H", 2); (8, "O", 1)] TypeError); reflexivity.
Defined.
